(** * dbxcli [put]: the upload command and its chunked session driver

    A shallow embedding of [cmd/put.go].  The remote storage client, the file
    system, the wall clock and the flag parser are collaborators of the
    command; they appear here as an environment the command calls into, and
    every call made on the remote client is recorded in a log so that the
    protocol the command speaks can be stated and proved. *)

From Stdlib Require Import ZArith List String Ascii Bool Lia.
From Stdlib.Strings Require Import Byte.
From Equations Require Import Equations.
Import ListNotations.

Local Open Scope string_scope.
Local Open Scope list_scope.
Local Open Scope Z_scope.

(** ** 64-bit integers

    Go's [int64] and [uint64] are modelled as [Z] with the wrap-around
    written out. *)

Module Int64.

Definition modulus : Z := 2 ^ 64.
Definition half_modulus : Z := 2 ^ 63.

(** Two's complement wrap-around of a mathematical integer into [int64]. *)
Definition wrap (x : Z) : Z := (x + half_modulus) mod modulus - half_modulus.

Definition add (x y : Z) : Z := wrap (x + y).
Definition sub (x y : Z) : Z := wrap (x - y).

(** The conversion [uint64(x)]. *)
Definition to_uint64 (x : Z) : Z := x mod modulus.

Definition in_range (x : Z) : Prop := - half_modulus <= x < half_modulus.

End Int64.

(** ** Strings and paths (Go's [strings] and [path] packages) *)

Definition slash : ascii := "/"%char.

(** [s[i:]] for [0 <= i <= len(s)]. *)
Definition slice_from (i : nat) (s : string) : string :=
  substring i (String.length s - i) s.

(** [strings.HasSuffix]. *)
Definition strings_HasSuffix (s suffix : string) : bool :=
  (String.length suffix <=? String.length s)%nat
  && String.eqb (slice_from (String.length s - String.length suffix) s) suffix.

(** [strings.TrimSuffix]: removes one occurrence of [suffix] from the end. *)
Definition strings_TrimSuffix (s suffix : string) : string :=
  if strings_HasSuffix s suffix
  then substring 0 (String.length s - String.length suffix) s
  else s.

(** The loop of [path.Base] that strips trailing slashes:
    [for len(path) > 0 && path[len(path)-1] == '/' { path = path[0:len(path)-1] }]. *)
Fixpoint strip_trailing_slashes (s : string) : string :=
  match s with
  | EmptyString => EmptyString
  | String c s' =>
      match strip_trailing_slashes s' with
      | EmptyString => if Ascii.eqb c slash then EmptyString else String c EmptyString
      | t => String c t
      end
  end.

(** [strings.LastIndex(s, "/")]: the index of the last slash, or [-1]. *)
Fixpoint strings_LastIndex_slash (s : string) : Z :=
  match s with
  | EmptyString => -1
  | String c s' =>
      let i := strings_LastIndex_slash s' in
      if 0 <=? i then i + 1
      else if Ascii.eqb c slash then 0 else -1
  end.

(** [path.Base]. *)
Definition path_Base (p : string) : string :=
  if String.eqb p "" then "."
  else
    let p := strip_trailing_slashes p in
    let i := strings_LastIndex_slash p in
    let p := if 0 <=? i then slice_from (Z.to_nat (i + 1)) p else p in
    if String.eqb p "" then "/" else p.

(** ** Time (Go's [time] package)

    An instant is a count of nanoseconds since the zero time (January 1,
    year 1, 00:00:00 UTC) together with the location it is presented in. *)

Inductive Location : Type :=
| UTC
| Local.

Record Time : Type := mkTime {
  nanos : Z;
  loc : Location
}.

Definition Duration : Type := Z.
Definition Second : Duration := 1000000000.

(** [t.UTC()]: the same instant, presented in UTC. *)
Definition Time_UTC (t : Time) : Time := mkTime (nanos t) UTC.

(** [t.Round(d)]: the nearest multiple of [d] since the zero time; halfway
    values round up.  For [d <= 0] the time is returned unchanged. *)
Definition Time_Round (t : Time) (d : Duration) : Time :=
  if d <=? 0 then t
  else
    let r := nanos t mod d in
    if r + r <? d
    then mkTime (nanos t - r) (loc t)
    else mkTime (nanos t + (d - r)) (loc t).

(** The zero value of [time.Time]. *)
Definition zero_Time : Time := mkTime 0 UTC.

(** ** Errors and results *)

(** A Go [error] is identified with its message; [option error] is an
    [error] that may be [nil]. *)
Definition error : Type := string.

Inductive result (A : Type) : Type :=
| Ok (a : A)
| Err (e : error).
Arguments Ok {A} a.
Arguments Err {A} e.

(** ** The remote storage client (package [files] of the Dropbox SDK) *)

Definition bytes : Type := list byte.

Record UploadSessionCursor : Type := NewUploadSessionCursor {
  SessionId : string;
  Offset : Z
}.

Record CommitInfo : Type := mkCommitInfo {
  Path : string;
  Mode : string;
  Autorename : bool;
  ClientModified : Time;
  Mute : bool
}.

(** [files.NewCommitInfo]. *)
Definition NewCommitInfo (path : string) : CommitInfo :=
  mkCommitInfo path "add" false zero_Time false.

Definition set_Mode (tag : string) (c : CommitInfo) : CommitInfo :=
  mkCommitInfo (Path c) tag (Autorename c) (ClientModified c) (Mute c).

Definition set_ClientModified (t : Time) (c : CommitInfo) : CommitInfo :=
  mkCommitInfo (Path c) (Mode c) (Autorename c) t (Mute c).

Record UploadSessionFinishArg : Type := NewUploadSessionFinishArg {
  Cursor : UploadSessionCursor;
  Commit : CommitInfo
}.

(** One request made on the client, with the bytes of its body. *)
Inductive Call : Type :=
| UploadSessionStartCall (body : bytes)
| UploadSessionAppendCall (arg : UploadSessionCursor) (body : bytes)
| UploadSessionFinishCall (arg : UploadSessionFinishArg) (body : bytes)
| UploadCall (arg : CommitInfo) (body : bytes).

Definition call_body (c : Call) : bytes :=
  match c with
  | UploadSessionStartCall b => b
  | UploadSessionAppendCall _ b => b
  | UploadSessionFinishCall _ b => b
  | UploadCall _ b => b
  end.

Definition call_commit (c : Call) : option CommitInfo :=
  match c with
  | UploadSessionFinishCall a _ => Some (Commit a)
  | UploadCall a _ => Some a
  | _ => None
  end.

Definition is_start (c : Call) : bool :=
  match c with UploadSessionStartCall _ => true | _ => false end.
Definition is_finish (c : Call) : bool :=
  match c with UploadSessionFinishCall _ _ => true | _ => false end.
Definition is_upload (c : Call) : bool :=
  match c with UploadCall _ _ => true | _ => false end.

(** The client is an arbitrary deterministic service: its answer to a
    request may depend on every request made before it. *)
Record Client : Type := mkClient {
  start_reply : list Call -> bytes -> result string;
  append_reply : list Call -> UploadSessionCursor -> bytes -> option error;
  finish_reply : list Call -> UploadSessionFinishArg -> bytes -> option error;
  upload_reply : list Call -> CommitInfo -> bytes -> option error
}.

(** ** Readers

    An [io.Reader] over a file is the list of bytes it has not delivered yet.
    The reader is a shared mutable object: the command hands the same reader
    to several client calls in turn, so it lives in the state. *)

Record Conn : Type := mkConn {
  reader : bytes;
  log : list Call
}.

(** The body handed to a client call: the reader itself, or
    [&io.LimitedReader{R: r, N: n}]. *)
Inductive Body : Type :=
| WholeReader
| LimitedReader (n : Z).

(** The client reads its body to the end. *)
Definition read_body (b : Body) (r : bytes) : bytes * bytes :=
  match b with
  | WholeReader => (r, [])
  | LimitedReader n => (firstn (Z.to_nat n) r, skipn (Z.to_nat n) r)
  end.

(** A small state monad over [Conn]. *)
Definition M (A : Type) : Type := Conn -> A * Conn.

Definition ret {A} (a : A) : M A := fun s => (a, s).
Definition bind {A B} (m : M A) (k : A -> M B) : M B :=
  fun s => let (a, s') := m s in k a s'.

Notation "x <- m ;; k" := (bind m (fun x => k))
  (at level 61, m at next level, right associativity).

(** Performs one request: consumes the body from the reader, records the
    call, and returns the service's answer. *)
Definition request {A} (mk : bytes -> Call) (reply : list Call -> bytes -> A)
    (b : Body) : M A :=
  fun s =>
    let (sent, rest) := read_body b (reader s) in
    (reply (log s) sent, mkConn rest (log s ++ [mk sent])).

Definition UploadSessionStart (dbx : Client) (b : Body) : M (result string) :=
  request UploadSessionStartCall (start_reply dbx) b.

Definition UploadSessionAppend (dbx : Client) (arg : UploadSessionCursor)
    (b : Body) : M (option error) :=
  request (UploadSessionAppendCall arg)
          (fun h => append_reply dbx h arg) b.

Definition UploadSessionFinish (dbx : Client) (arg : UploadSessionFinishArg)
    (b : Body) : M (option error) :=
  request (UploadSessionFinishCall arg)
          (fun h => finish_reply dbx h arg) b.

Definition Upload (dbx : Client) (arg : CommitInfo) (b : Body) : M (option error) :=
  request (UploadCall arg) (fun h => upload_reply dbx h arg) b.

(** ** [uploadChunked] *)

Definition chunkSize : Z := Z.shiftl 1 24.

Lemma chunkSize_eq : chunkSize = 16777216.
Proof. reflexivity. Qed.

(** Subtracting one chunk from a remaining count that exceeds a chunk does
    not wrap, whatever the operands. *)
Lemma sub_add_chunk (sizeTotal written : Z) :
  Int64.sub sizeTotal written > chunkSize ->
  Int64.sub sizeTotal (Int64.add written chunkSize)
  = Int64.sub sizeTotal written - chunkSize.
Proof.
  unfold Int64.sub, Int64.add, Int64.wrap.
  change Int64.modulus with 18446744073709551616.
  change Int64.half_modulus with 9223372036854775808.
  rewrite chunkSize_eq. intros H.
  pose proof (Z.mod_pos_bound (sizeTotal - written + 9223372036854775808)
                18446744073709551616 ltac:(lia)) as B1.
  pose proof (Z.div_mod (sizeTotal - written + 9223372036854775808)
                18446744073709551616 ltac:(lia)) as D1.
  pose proof (Z.div_mod (written + 16777216 + 9223372036854775808)
                18446744073709551616 ltac:(lia)) as D2.
  set (q1 := (sizeTotal - written + 9223372036854775808) / 18446744073709551616) in *.
  set (r1 := (sizeTotal - written + 9223372036854775808) mod 18446744073709551616) in *.
  set (q2 := (written + 16777216 + 9223372036854775808) / 18446744073709551616) in *.
  set (r2 := (written + 16777216 + 9223372036854775808) mod 18446744073709551616) in *.
  replace (sizeTotal - (r2 - 9223372036854775808) + 9223372036854775808)
    with (r1 - 16777216 + (q1 + q2) * 18446744073709551616) by lia.
  rewrite Z.mod_add by lia.
  rewrite Z.mod_small by lia. lia.
Qed.

(** One chunk fewer remains after an append: the measure of the loop. *)
Lemma chunks_left_decrease (sizeTotal written : Z) :
  Int64.sub sizeTotal written > chunkSize ->
  (Z.to_nat (Int64.sub sizeTotal (Int64.add written chunkSize) / chunkSize)
   < Z.to_nat (Int64.sub sizeTotal written / chunkSize))%nat.
Proof.
  intros H. rewrite sub_add_chunk by assumption.
  pose proof chunkSize_eq as E.
  set (rem := Int64.sub sizeTotal written) in *.
  replace (rem - chunkSize) with (rem + (-1) * chunkSize) by lia.
  rewrite Z.div_add by lia.
  assert (1 <= rem / chunkSize) by (apply Z.div_le_lower_bound; lia).
  lia.
Qed.

Opaque chunkSize Int64.sub Int64.add Int64.to_uint64.

(** The append loop of [uploadChunked] (lines 44-52).  Returns the error of
    the failed append, if any, and the final value of [written]. *)
Equations? append_loop (dbx : Client) (sessionId : string)
    (sizeTotal written : Z) (s : Conn) : (option error * Z) * Conn
    by wf (Z.to_nat (Int64.sub sizeTotal written / chunkSize)) lt :=
  append_loop dbx sessionId sizeTotal written s
    with Z_gt_dec (Int64.sub sizeTotal written) chunkSize => {
    | right _ := ((None, written), s)
    | left _ with UploadSessionAppend dbx
                    (NewUploadSessionCursor sessionId (Int64.to_uint64 written))
                    (LimitedReader chunkSize) s => {
      | (Some err, s') := ((Some err, written), s')
      | (None, s') :=
          append_loop dbx sessionId sizeTotal (Int64.add written chunkSize) s' } }.
Proof.
  apply chunks_left_decrease; assumption.
Qed.

Transparent Int64.sub Int64.add Int64.to_uint64.

Definition uploadChunked (dbx : Client) (commitInfo : CommitInfo)
    (sizeTotal : Z) : M (option error) :=
  res <- UploadSessionStart dbx (LimitedReader chunkSize) ;;
  match res with
  | Err err => ret (Some err)
  | Ok sessionId =>
      let written := chunkSize in
      loop <- append_loop dbx sessionId sizeTotal written ;;
      let '(err, written) := loop in
      match err with
      | Some err => ret (Some err)
      | None =>
          let cursor := NewUploadSessionCursor sessionId (Int64.to_uint64 written) in
          let args := NewUploadSessionFinishArg cursor commitInfo in
          UploadSessionFinish dbx args WholeReader
      end
  end.

(** ** [uploadFile] and [fullName] *)

Definition uploadFile (dbx : Client) (commitInfo : CommitInfo) : M (option error) :=
  Upload dbx commitInfo WholeReader.

Definition fullName (fileName destination : string) : string :=
  (strings_TrimSuffix destination "/" ++ "/" ++ fileName)%string.

(** ** [put] *)

Record FileInfo : Type := mkFileInfo {
  Size : Z;
  ModTime : Time
}.

(** An open file: the bytes a reader over it delivers, and what [Stat]
    answers. *)
Record File : Type := mkFile {
  file_bytes : bytes;
  Stat : result FileInfo
}.

(** What the command calls into besides the remote client.
    [validatePath] is a helper of the same package that is declared in
    another file; the command is modelled for an arbitrary one. *)
Record Env : Type := mkEnv {
  GetString_destination : result string;
  validatePath : string -> result string;
  os_Open : string -> result File;
  time_Now : nat -> Time;
  files_New : Client
}.

(** The state the command runs in: the requests made on the remote service
    so far, the number of times the wall clock has been read, and the tasks
    that have run, each with the error it returned. *)
Record World : Type := mkWorld {
  calls : list Call;
  ticks : nat;
  tasks : list (string * option error)
}.

(** Lines 79-86: the remote path of one source. *)
Definition resolve_dst (env : Env) (destination arg : string) : result string :=
  let dst := ("/" ++ path_Base arg)%string in
  if negb (String.eqb destination "")
  then validatePath env (fullName arg destination)
  else Ok dst.

(** Lines 108-112: the commit metadata of one upload. *)
Definition make_commitInfo (dst : string) (now : Time) : CommitInfo :=
  let commitInfo := NewCommitInfo dst in
  let commitInfo := set_Mode "overwrite" commitInfo in
  set_ClientModified (Time_Round (Time_UTC now) Second) commitInfo.

(** Lines 114-126: the upload itself, over the progress-observing reader. *)
Definition upload_task (dbx : Client) (arg : string) (commitInfo : CommitInfo)
    (size : Z) : M (option error) :=
  err <- (if size >? chunkSize
          then uploadChunked dbx commitInfo size
          else ret None) ;;
  match err with
  | Some err => ret (Some err)
  | None =>
      err <- uploadFile dbx commitInfo ;;
      match err with
      | Some _ => ret (Some ("Did not upload " ++ arg)%string)
      | None => ret None
      end
  end.

(** The body of the goroutine started for one argument (lines 77-127). *)
Definition put_task (env : Env) (destination arg : string) (w : World)
    : option error * World :=
  match resolve_dst env destination arg with
  | Err err => (Some err, w)
  | Ok dst =>
      match os_Open env arg with
      | Err err => (Some err, w)
      | Ok contents =>
          match Stat contents with
          | Err err => (Some err, w)
          | Ok contentsInfo =>
              let now := time_Now env (ticks w) in
              let commitInfo := make_commitInfo dst now in
              let dbx := files_New env in
              let (err, c) :=
                upload_task dbx arg commitInfo (Size contentsInfo)
                            (mkConn (file_bytes contents) (calls w)) in
              (err, mkWorld (log c) (S (ticks w)) (tasks w))
          end
      end
  end.

(** Starting a goroutine and letting it run to its end: the value it
    returns is dropped by the [go] statement; it is kept here, beside the
    argument, only so that theorems can speak of it. *)
Definition go_task (env : Env) (destination : string) (w : World) (arg : string)
    : World :=
  let (err, w') := put_task env destination arg w in
  mkWorld (calls w') (ticks w') (tasks w' ++ [(arg, err)]).

(** The goroutines are run one after the other, in the order of the
    arguments; [waitGroup.Wait()] returns when the last one has ended.
    Each task has here a result of its own.  In the source the error of
    [validatePath] is assigned to and tested on the result variable of
    [put], which the goroutines share; this is the same thing when a single
    task runs, and when no destination is given, since the tasks then leave
    that variable alone. *)
Definition put (env : Env) (args : list string) (w : World)
    : option error * World :=
  if (List.length args =? 0)%nat
  then (Some "missing operands to `put`", w)
  else
    match GetString_destination env with
    | Err err => (Some err, w)
    | Ok destination =>
        let w := fold_left (go_task env destination) args w in
        (None, w)
    end.

(** * Specification vocabulary

    Definitions used to state what the command does: the calls a run is
    expected to make, and sample collaborators for concrete runs. *)

(** The chunk size as a number of list elements. *)
Definition chunk : nat := Z.to_nat chunkSize.

(** The value of [written] after [n] successful appends. *)
Fixpoint written_after (written : Z) (n : nat) : Z :=
  match n with
  | O => written
  | S n' => written_after (Int64.add written chunkSize) n'
  end.

(** The append call of iteration [k] (counted from 0) of the loop entered
    with [written] over the reader [r]. *)
Definition append_call (sid : string) (written : Z) (r : bytes) (k : nat) : Call :=
  UploadSessionAppendCall
    (NewUploadSessionCursor sid (Int64.to_uint64 (written_after written k)))
    (firstn chunk (skipn (k * chunk) r)).

(** The first [n] append calls of that loop. *)
Definition append_calls (sid : string) (written : Z) (r : bytes) (n : nat)
    : list Call :=
  map (append_call sid written r) (seq 0 n).

(** The number of iterations the loop makes when no append fails. *)
Definition loop_iterations (sizeTotal written : Z) : nat :=
  Z.to_nat ((Int64.sub sizeTotal written - 1) / chunkSize).

(** The finish call made after [n] successful appends. *)
Definition finish_arg (sid : string) (commitInfo : CommitInfo) (n : nat)
    : UploadSessionFinishArg :=
  NewUploadSessionFinishArg
    (NewUploadSessionCursor sid (Int64.to_uint64 (written_after chunkSize n)))
    commitInfo.

(** The calls of a chunked upload whose start call returned [sid] and that
    made [m] append calls, over the reader [r]. *)
Definition session_calls (sid : string) (r : bytes) (m : nat) : list Call :=
  UploadSessionStartCall (firstn chunk r)
  :: append_calls sid chunkSize (skipn chunk r) m.

(** The service accepts every append call. *)
Definition accepts_appends (dbx : Client) : Prop :=
  forall h arg body, append_reply dbx h arg body = None.

(** The number of append calls of a chunked upload of [sizeTotal] bytes. *)
Definition append_count (sizeTotal : Z) : Z :=
  (sizeTotal - chunkSize - 1) / chunkSize.

(** The calls made during a run that started in [s] and ended in [s']. *)
Definition issued (s s' : Conn) : list Call :=
  skipn (List.length (log s)) (log s').

(** The [k]-th append call (counted from 1) of a session over the reader
    [r]: it carries the offset [k * chunkSize]. *)
Definition nth_append (sid : string) (r : bytes) (k : nat) : Call :=
  UploadSessionAppendCall
    (NewUploadSessionCursor sid (Z.of_nat k * chunkSize))
    (firstn chunk (skipn (k * chunk) r)).

(** The error the task reports when the single-shot call fails. *)
Definition did_not_upload (arg : string) (err : option error) : option error :=
  match err with
  | Some _ => Some ("Did not upload " ++ arg)%string
  | None => None
  end.

(** A call carries the commit metadata [ci] when it carries any. *)
Definition carries (ci : CommitInfo) (c : Call) : Prop :=
  forall ci', call_commit c = Some ci' -> ci' = ci.

(** A service that accepts every request. *)
Definition accepting : Client :=
  mkClient (fun _ _ => Ok "session-1") (fun _ _ _ => None)
           (fun _ _ _ => None) (fun _ _ _ => None).

(** A service that starts sessions and then refuses every other request. *)
Definition refusing : Client :=
  mkClient (fun _ _ => Ok "session-1") (fun _ _ _ => Some "append refused")
           (fun _ _ _ => Some "finish refused") (fun _ _ _ => Some "upload refused").

(** A stream of [n] zero bytes. *)
Definition zeros (n : nat) : bytes := repeat x00 n.

(** The commit metadata of the upload of ["big.bin"] at the zero time. *)
Definition sample_commitInfo : CommitInfo :=
  make_commitInfo "/big.bin" zero_Time.

(** A reader over a file of one chunk and one byte, and nothing logged. *)
Definition sample_conn : Conn := mkConn (zeros (chunk + 1)) [].

(** The state before the command has done anything. *)
Definition world0 : World := mkWorld [] 0 [].

(** An environment with no destination flag, a [validatePath] that accepts
    every path as it is, one file behind every name, and a stopped clock. *)
Definition sample_env (dbx : Client) (file : File) (now : Time) : Env :=
  mkEnv (Ok "") (fun p => Ok p) (fun _ => Ok file) (fun _ => now) dbx.

(** A file of one chunk and one byte. *)
Definition big_info : FileInfo := mkFileInfo (chunkSize + 1) zero_Time.

Definition big_file : File := mkFile (zeros (chunk + 1)) (Ok big_info).

(** A file of one byte. *)
Definition small_file : File :=
  mkFile [x01] (Ok (mkFileInfo 1 zero_Time)).

(** An environment in which no file can be opened. *)
Definition no_files_env : Env :=
  mkEnv (Ok "") (fun p => Ok p)
        (fun p => Err ("open " ++ p ++ ": no such file or directory")%string)
        (fun _ => zero_Time) refusing.

(** The timestamp [sent] is the instant [now] in UTC, rounded down to whole
    seconds. *)
Definition rounded_down (now sent : Time) : Prop :=
  loc sent = UTC /\ nanos sent = nanos now / Second * Second.

(** A clock that reads 1.6 seconds after the zero time, in local time. *)
Definition late_clock : Time := mkTime 1600000000 Local.

(** The same environment, with the modification time of every file that can
    be statted replaced by [f] of its name. *)
Definition with_ModTime (f : string -> Time) (env : Env) : Env :=
  mkEnv (GetString_destination env) (validatePath env)
        (fun name =>
           match os_Open env name with
           | Ok file =>
               Ok (mkFile (file_bytes file)
                     match Stat file with
                     | Ok info => Ok (mkFileInfo (Size info) (f name))
                     | Err e => Err e
                     end)
           | Err e => Err e
           end)
        (time_Now env) (files_New env).

(** [s] contains a slash. *)
Fixpoint has_slash (s : string) : bool :=
  match s with
  | EmptyString => false
  | String c s' => Ascii.eqb c slash || has_slash s'
  end.

(** The error with which the service answers the call [c] made after the
    calls [h], or [None] when it accepts it. *)
Definition reply_of (dbx : Client) (h : list Call) (c : Call) : option error :=
  match c with
  | UploadSessionStartCall b =>
      match start_reply dbx h b with Ok _ => None | Err e => Some e end
  | UploadSessionAppendCall a b => append_reply dbx h a b
  | UploadSessionFinishCall a b => finish_reply dbx h a b
  | UploadCall a b => upload_reply dbx h a b
  end.

(** The service accepts every call of [l], made in that order after [h]. *)
Fixpoint all_accepted (dbx : Client) (h l : list Call) : bool :=
  match l with
  | [] => true
  | c :: l' =>
      match reply_of dbx h c with
      | None => all_accepted dbx (h ++ [c]) l'
      | Some _ => false
      end
  end.

(** Between [s] and [s'] the calls made have carried, in order, exactly the
    bytes that were taken from the reader: nothing was dropped, repeated or
    reordered. *)
Definition conserved (s s' : Conn) : Prop :=
  exists new,
    log s' = log s ++ new /\
    List.concat (map call_body new) ++ reader s' = reader s.

(** The offset of the cursor a call carries, if it carries one. *)
Definition call_offset (c : Call) : option Z :=
  match c with
  | UploadSessionAppendCall a _ => Some (Offset a)
  | UploadSessionFinishCall a _ => Some (Offset (Cursor a))
  | _ => None
  end.

(** Every cursor in [l] carries as its offset the number of bytes carried
    by the calls before it, counted from [sent]. *)
Fixpoint offsets_match (sent : Z) (l : list Call) : bool :=
  match l with
  | [] => true
  | c :: l' =>
      match call_offset c with
      | Some o => o =? sent
      | None => true
      end
      && offsets_match (sent + Z.of_nat (List.length (call_body c))) l'
  end.

(** The number of bytes a call carries. *)
Definition body_size (c : Call) : Z := Z.of_nat (List.length (call_body c)).



(** A reader over a file of two chunks and one byte, and nothing logged. *)
Definition two_chunk_conn : Conn := mkConn (zeros (chunk + chunk + 1)) [].


(** * Lemmas *)

(** ** Sanity checks on small inputs *)

Example fullName_trailing : fullName "a.txt" "/x/" = "/x/a.txt".
Proof. reflexivity. Qed.

Example path_Base_examples :
  path_Base "dir/a.txt" = "a.txt" /\ path_Base "/a/b/" = "b"
  /\ path_Base "" = "." /\ path_Base "///" = "/" /\ path_Base "a" = "a".
Proof. repeat split. Qed.

Lemma append_loop_eq dbx sid sizeTotal written s :
  append_loop dbx sid sizeTotal written s =
  if Z_gt_dec (Int64.sub sizeTotal written) chunkSize
  then
    match UploadSessionAppend dbx
            (NewUploadSessionCursor sid (Int64.to_uint64 written))
            (LimitedReader chunkSize) s with
    | (Some err, s') => ((Some err, written), s')
    | (None, s') => append_loop dbx sid sizeTotal (Int64.add written chunkSize) s'
    end
  else ((None, written), s).
Proof.
  simp append_loop.
  destruct (Z_gt_dec (Int64.sub sizeTotal written) chunkSize); simpl.
  - destruct (append_reply _ _ _ _); reflexivity.
  - reflexivity.
Qed.

(** ** The calls of a chunked upload *)

Lemma chunk_eq : Z.to_nat chunkSize = chunk.
Proof. unfold chunk. reflexivity. Qed.

Lemma chunk_Z : Z.of_nat chunk = chunkSize.
Proof. unfold chunk. rewrite chunkSize_eq. lia. Qed.

Opaque chunk.

Lemma loop_iterations_exit sizeTotal written :
  ~ Int64.sub sizeTotal written > chunkSize ->
  loop_iterations sizeTotal written = 0%nat.
Proof.
  intros H. unfold loop_iterations. pose proof chunkSize_eq as E.
  assert ((Int64.sub sizeTotal written - 1) / chunkSize < 1)
    by (apply Z.div_lt_upper_bound; lia).
  lia.
Qed.

Lemma loop_iterations_step sizeTotal written :
  Int64.sub sizeTotal written > chunkSize ->
  loop_iterations sizeTotal written
  = S (loop_iterations sizeTotal (Int64.add written chunkSize)).
Proof.
  intros H. unfold loop_iterations. rewrite sub_add_chunk by assumption.
  pose proof chunkSize_eq as E.
  set (rem := Int64.sub sizeTotal written) in *.
  replace (rem - 1) with (rem - chunkSize - 1 + 1 * chunkSize) by lia.
  rewrite Z.div_add by lia.
  assert (0 <= (rem - chunkSize - 1) / chunkSize)
    by (apply Z.div_pos; lia).
  lia.
Qed.

Lemma skipn_chunks {A} (k : nat) (l : list A) :
  skipn (k * chunk) (skipn chunk l) = skipn (S k * chunk) l.
Proof.
  rewrite skipn_skipn. f_equal. apply Nat.add_comm.
Qed.

Lemma append_calls_0 sid written r : append_calls sid written r 0 = [].
Proof. reflexivity. Qed.

Lemma append_calls_S sid written r n :
  append_calls sid written r (S n)
  = UploadSessionAppendCall
      (NewUploadSessionCursor sid (Int64.to_uint64 written)) (firstn chunk r)
    :: append_calls sid (Int64.add written chunkSize) (skipn chunk r) n.
Proof.
  unfold append_calls. cbn [seq map].
  rewrite <- seq_shift, map_map.
  unfold append_call at 1. cbn [Nat.mul skipn written_after].
  apply (f_equal (cons _)). apply map_ext. intros k.
  unfold append_call. rewrite skipn_chunks. reflexivity.
Qed.

Lemma append_calls_length sid written r n :
  List.length (append_calls sid written r n) = n.
Proof. unfold append_calls. rewrite length_map, length_seq. reflexivity. Qed.

(** What the loop does, for an arbitrary service: it issues the first [m]
    append calls, where either every append succeeded and [m] is the full
    number of iterations, or the [m]-th append failed and the loop returned
    its error at once. *)
Lemma append_loop_spec dbx sid sizeTotal :
  forall (n : nat) written s,
    loop_iterations sizeTotal written = n ->
    exists m : nat,
      (m <= n)%nat /\
      snd (append_loop dbx sid sizeTotal written s)
      = mkConn (skipn (m * chunk) (reader s))
               (log s ++ append_calls sid written (reader s) m) /\
      ((m = n /\
        fst (append_loop dbx sid sizeTotal written s)
        = (None, written_after written n))
       \/
       (exists m' e, m = S m' /\
          fst (append_loop dbx sid sizeTotal written s)
          = (Some e, written_after written m') /\
          append_reply dbx (log s ++ append_calls sid written (reader s) m')
            (NewUploadSessionCursor sid
               (Int64.to_uint64 (written_after written m')))
            (firstn chunk (skipn (m' * chunk) (reader s))) = Some e)).
Proof.
  induction n as [|n IH]; intros written s Hn; rewrite append_loop_eq.
  - destruct (Z_gt_dec _ _) as [g|g].
    + rewrite (loop_iterations_step _ _ g) in Hn. discriminate.
    + exists 0%nat. rewrite append_calls_0, app_nil_r.
      destruct s; cbn. auto.
  - destruct (Z_gt_dec _ _) as [g|g].
    2:{ rewrite (loop_iterations_exit _ _ g) in Hn. discriminate. }
    rewrite (loop_iterations_step _ _ g) in Hn. injection Hn as Hn.
    unfold UploadSessionAppend, request. cbn [read_body].
    rewrite chunk_eq.
    destruct (append_reply _ _ _ _) as [e|] eqn:Hreply.
    + exists 1%nat. split; [lia|]. split.
      * rewrite append_calls_S, append_calls_0.
        cbn [snd Nat.mul]. rewrite Nat.add_0_r. reflexivity.
      * right. exists 0%nat, e. rewrite append_calls_0, app_nil_r.
        cbn [Nat.mul skipn written_after fst]. auto.
    + match goal with |- context [append_loop _ _ _ _ ?s1] =>
        destruct (IH (Int64.add written chunkSize) s1 Hn)
          as (m & Hm & Hs & Hr) end.
      exists (S m). split; [lia|]. split.
      * rewrite Hs. cbn [reader log].
        rewrite skipn_chunks, append_calls_S, <- app_assoc. reflexivity.
      * destruct Hr as [[-> Hr]|(m' & e & -> & Hr & He)].
        -- left. split; [reflexivity|]. rewrite Hr. reflexivity.
        -- right. exists (S m'), e. split; [reflexivity|].
           rewrite Hr. split; [reflexivity|].
           cbn [reader log] in He.
           rewrite skipn_chunks, <- app_assoc in He.
           rewrite append_calls_S. exact He.
Qed.

Lemma uploadChunked_eq dbx commitInfo sizeTotal s :
  uploadChunked dbx commitInfo sizeTotal s =
  let s1 := mkConn (skipn chunk (reader s))
                   (log s ++ [UploadSessionStartCall (firstn chunk (reader s))]) in
  match start_reply dbx (log s) (firstn chunk (reader s)) with
  | Err e => (Some e, s1)
  | Ok sid =>
      match append_loop dbx sid sizeTotal chunkSize s1 with
      | ((Some e, _), s2) => (Some e, s2)
      | ((None, written), s2) =>
          let arg := NewUploadSessionFinishArg
                       (NewUploadSessionCursor sid (Int64.to_uint64 written))
                       commitInfo in
          (finish_reply dbx (log s2) arg (reader s2),
           mkConn [] (log s2 ++ [UploadSessionFinishCall arg (reader s2)]))
      end
  end.
Proof.
  unfold uploadChunked, bind, UploadSessionStart, request.
  cbn [read_body]. rewrite chunk_eq.
  destruct (start_reply _ _ _) as [sid|e]; [|reflexivity].
  cbv zeta.
  destruct (append_loop _ _ _ _ _) as [[[e|] w] s2]; reflexivity.
Qed.

Lemma uploadChunked_start_failed dbx commitInfo sizeTotal s e :
  start_reply dbx (log s) (firstn chunk (reader s)) = Err e ->
  uploadChunked dbx commitInfo sizeTotal s
  = (Some e, mkConn (skipn chunk (reader s))
                    (log s ++ [UploadSessionStartCall (firstn chunk (reader s))])).
Proof.
  intros H. rewrite uploadChunked_eq, H. reflexivity.
Qed.

(** After a successful start, a chunked upload either stops at the first
    append that fails, or makes every append and then the finish call. *)
Lemma uploadChunked_started dbx commitInfo sizeTotal s sid :
  start_reply dbx (log s) (firstn chunk (reader s)) = Ok sid ->
  exists m : nat,
    (m <= loop_iterations sizeTotal chunkSize)%nat /\
    ((exists m' e, m = S m' /\
        uploadChunked dbx commitInfo sizeTotal s
        = (Some e, mkConn (skipn (m * chunk) (skipn chunk (reader s)))
                          (log s ++ session_calls sid (reader s) m)) /\
        append_reply dbx (log s ++ session_calls sid (reader s) m')
          (NewUploadSessionCursor sid
             (Int64.to_uint64 (written_after chunkSize m')))
          (firstn chunk (skipn (m' * chunk) (skipn chunk (reader s))))
        = Some e)
     \/
     (m = loop_iterations sizeTotal chunkSize /\
      uploadChunked dbx commitInfo sizeTotal s
      = (finish_reply dbx (log s ++ session_calls sid (reader s) m)
                      (finish_arg sid commitInfo m)
                      (skipn (m * chunk) (skipn chunk (reader s))),
         mkConn []
                (log s ++ session_calls sid (reader s) m
                 ++ [UploadSessionFinishCall (finish_arg sid commitInfo m)
                       (skipn (m * chunk) (skipn chunk (reader s)))])))).
Proof.
  intros H. rewrite uploadChunked_eq, H. cbv zeta.
  set (s1 := mkConn (skipn chunk (reader s))
                    (log s ++ [UploadSessionStartCall (firstn chunk (reader s))])).
  destruct (append_loop_spec dbx sid sizeTotal _ chunkSize s1 eq_refl)
    as (m & Hm & Hs & Hr).
  exists m. split; [exact Hm|].
  destruct (append_loop dbx sid sizeTotal chunkSize s1) as [[err w] s2].
  cbn [fst snd] in Hs, Hr. subst s2. unfold s1 in *. cbn [reader log] in *.
  rewrite <- !app_assoc. cbn [app]. fold (session_calls sid (reader s) m).
  destruct Hr as [[-> Hr]|(m' & e & -> & Hr & He)]; injection Hr as -> ->.
  - right. split; reflexivity.
  - left. exists m', e. split; [reflexivity|]. split; [reflexivity|].
    rewrite <- app_assoc in He. exact He.
Qed.

Lemma uploadChunked_appended dbx commitInfo sizeTotal s sid :
  start_reply dbx (log s) (firstn chunk (reader s)) = Ok sid ->
  accepts_appends dbx ->
  let m := loop_iterations sizeTotal chunkSize in
  uploadChunked dbx commitInfo sizeTotal s
  = (finish_reply dbx (log s ++ session_calls sid (reader s) m)
                  (finish_arg sid commitInfo m)
                  (skipn (m * chunk) (skipn chunk (reader s))),
     mkConn []
            (log s ++ session_calls sid (reader s) m
             ++ [UploadSessionFinishCall (finish_arg sid commitInfo m)
                   (skipn (m * chunk) (skipn chunk (reader s)))])).
Proof.
  intros H Hacc m.
  destruct (uploadChunked_started dbx commitInfo sizeTotal s sid H)
    as (m0 & _ & [(m' & e & _ & _ & He)|[-> Hr]]).
  - rewrite Hacc in He. discriminate.
  - exact Hr.
Qed.

(** ** Sizes within the range of [int64] *)

Lemma wrap_small (x : Z) : Int64.in_range x -> Int64.wrap x = x.
Proof.
  unfold Int64.in_range, Int64.wrap.
  change Int64.modulus with 18446744073709551616.
  change Int64.half_modulus with 9223372036854775808.
  intros H. rewrite Z.mod_small by lia. lia.
Qed.

Lemma to_uint64_small (x : Z) :
  0 <= x < Int64.half_modulus -> Int64.to_uint64 x = x.
Proof.
  unfold Int64.to_uint64.
  change Int64.modulus with 18446744073709551616.
  change Int64.half_modulus with 9223372036854775808.
  intros H. apply Z.mod_small. lia.
Qed.

Lemma written_after_exact (n : nat) :
  forall written,
    0 <= written ->
    written + Z.of_nat n * chunkSize < Int64.half_modulus ->
    written_after written n = written + Z.of_nat n * chunkSize.
Proof.
  pose proof chunkSize_eq as E.
  induction n as [|n IH]; intros written H0 H1; cbn [written_after].
  - lia.
  - assert (Hadd : Int64.add written chunkSize = written + chunkSize).
    { unfold Int64.add. apply wrap_small. unfold Int64.in_range.
      change Int64.half_modulus with 9223372036854775808 in *. lia. }
    rewrite Hadd, IH; lia.
Qed.

Lemma loop_iterations_exact (sizeTotal : Z) :
  0 <= sizeTotal < Int64.half_modulus ->
  loop_iterations sizeTotal chunkSize = Z.to_nat (append_count sizeTotal).
Proof.
  intros H. unfold loop_iterations, append_count, Int64.sub.
  rewrite wrap_small; [reflexivity|].
  unfold Int64.in_range. pose proof chunkSize_eq.
  change Int64.half_modulus with 9223372036854775808 in *. lia.
Qed.

(** What is left for the finish call lies between one byte and one chunk. *)
Lemma append_count_bounds (sizeTotal : Z) :
  sizeTotal > chunkSize ->
  0 <= append_count sizeTotal /\
  1 <= sizeTotal - chunkSize - append_count sizeTotal * chunkSize <= chunkSize.
Proof.
  intros H. unfold append_count. pose proof chunkSize_eq as E.
  pose proof (Z.div_mod (sizeTotal - chunkSize - 1) chunkSize ltac:(lia)) as D.
  pose proof (Z.mod_pos_bound (sizeTotal - chunkSize - 1) chunkSize ltac:(lia)) as B.
  assert (0 <= (sizeTotal - chunkSize - 1) / chunkSize)
    by (apply Z.div_pos; lia).
  nia.
Qed.

(** ** Bytes carried by the calls *)

Lemma firstn_add {A} (n m : nat) (l : list A) :
  firstn (n + m) l = firstn n l ++ firstn m (skipn n l).
Proof.
  revert l. induction n as [|n IH]; intros l.
  - reflexivity.
  - destruct l as [|a l].
    + cbn [Nat.add firstn skipn]. rewrite !firstn_nil. reflexivity.
    + cbn [Nat.add firstn skipn app]. rewrite IH. reflexivity.
Qed.

(** The append calls carry, in order, the next bytes of the reader. *)
Lemma append_calls_bodies sid (m : nat) :
  forall written r,
    List.concat (map call_body (append_calls sid written r m))
    = firstn (m * chunk) r.
Proof.
  induction m as [|m IH]; intros written r.
  - reflexivity.
  - rewrite append_calls_S. cbn [map List.concat call_body]. rewrite IH.
    cbn [Nat.mul]. rewrite firstn_add. reflexivity.
Qed.

Lemma session_calls_bodies sid r m :
  List.concat (map call_body (session_calls sid r m)) = firstn (S m * chunk) r.
Proof.
  unfold session_calls. cbn [map List.concat call_body].
  rewrite append_calls_bodies. cbn [Nat.mul]. rewrite firstn_add. reflexivity.
Qed.


Lemma append_call_body_length sid written r k :
  (S k * chunk <= List.length r)%nat ->
  List.length (call_body (append_call sid written r k)) = chunk.
Proof.
  intros H. cbn [append_call call_body].
  rewrite length_firstn, length_skipn. cbn [Nat.mul] in H. lia.
Qed.

(** Over a stream of [sizeTotal > chunkSize] bytes the start call and every
    append call carry exactly one chunk, and between one byte and one chunk
    are left for the finish call. *)
Lemma session_body_sizes sid r sizeTotal :
  Z.of_nat (List.length r) = sizeTotal ->
  sizeTotal > chunkSize ->
  let m := Z.to_nat (append_count sizeTotal) in
  Forall (fun c => List.length (call_body c) = chunk) (session_calls sid r m)
  /\ 1 <= Z.of_nat (List.length (skipn (m * chunk) (skipn chunk r))) <= chunkSize.
Proof.
  intros Hlen Hsize m.
  destruct (append_count_bounds sizeTotal Hsize) as [Hc0 Hc1].
  pose proof chunk_Z as Hchunk.
  assert (Hm : Z.of_nat m = append_count sizeTotal) by (unfold m; lia).
  assert (Hfit : (chunk + m * chunk <= List.length r)%nat) by nia.
  split.
  - unfold session_calls. constructor.
    + cbn [call_body]. rewrite length_firstn. lia.
    + unfold append_calls. apply Forall_forall. intros c Hc.
      apply in_map_iff in Hc. destruct Hc as (k & <- & Hk).
      apply in_seq in Hk. apply append_call_body_length.
      rewrite length_skipn. cbn [Nat.mul]. nia.
  - rewrite !length_skipn. nia.
Qed.

(** ** The calls made during a run *)

Lemma skipn_length_app {A} (l1 l2 : list A) :
  skipn (List.length l1) (l1 ++ l2) = l2.
Proof. induction l1 as [|a l1 IH]; [reflexivity | exact IH]. Qed.

Lemma issued_app s r l : issued s (mkConn r (log s ++ l)) = l.
Proof. unfold issued. cbn [log]. apply skipn_length_app. Qed.

Lemma no_finish_in_session sid r m :
  existsb is_finish (session_calls sid r m) = false.
Proof.
  unfold session_calls, append_calls. cbn [existsb is_finish orb].
  induction (seq 0 m) as [|k l IH]; [reflexivity | exact IH].
Qed.

(** ** The loop guard along the iterations *)




(** ** Explicit offsets *)

Lemma append_calls_offsets sid r (m : nat) :
  chunkSize + Z.of_nat m * chunkSize < Int64.half_modulus ->
  append_calls sid chunkSize (skipn chunk r) m
  = map (nth_append sid r) (seq 1 m).
Proof.
  intros H. unfold append_calls. rewrite <- seq_shift, map_map.
  apply map_ext_in. intros k Hk. apply in_seq in Hk.
  unfold append_call, nth_append. pose proof chunkSize_eq as E.
  change Int64.half_modulus with 9223372036854775808 in H.
  rewrite written_after_exact, to_uint64_small, skipn_chunks;
    change Int64.half_modulus with 9223372036854775808; try nia.
  f_equal. f_equal. lia.
Qed.

Lemma finish_arg_offset sid commitInfo (m : nat) :
  chunkSize + Z.of_nat m * chunkSize < Int64.half_modulus ->
  finish_arg sid commitInfo m
  = NewUploadSessionFinishArg
      (NewUploadSessionCursor sid ((Z.of_nat m + 1) * chunkSize)) commitInfo.
Proof.
  intros H. unfold finish_arg. pose proof chunkSize_eq as E.
  change Int64.half_modulus with 9223372036854775808 in H.
  rewrite written_after_exact, to_uint64_small;
    change Int64.half_modulus with 9223372036854775808; try nia.
  f_equal. f_equal. lia.
Qed.

(** ** The answers of the service *)

Lemma append_calls_snoc sid written r m :
  append_calls sid written r (S m)
  = append_calls sid written r m ++ [append_call sid written r m].
Proof. unfold append_calls. rewrite seq_S, map_app. reflexivity. Qed.

(** The loop, with the answers of the service: either every append was
    accepted and the loop made all its iterations, or the last append made
    was refused and every append before it was accepted. *)
Lemma append_loop_accepted dbx sid sizeTotal :
  forall (n : nat) written s,
    loop_iterations sizeTotal written = n ->
    exists m : nat,
      (m <= n)%nat /\
      snd (append_loop dbx sid sizeTotal written s)
      = mkConn (skipn (m * chunk) (reader s))
               (log s ++ append_calls sid written (reader s) m) /\
      ((m = n /\
        fst (append_loop dbx sid sizeTotal written s)
        = (None, written_after written m) /\
        all_accepted dbx (log s) (append_calls sid written (reader s) m) = true)
       \/
       (exists m' e, m = S m' /\
          fst (append_loop dbx sid sizeTotal written s)
          = (Some e, written_after written m') /\
          all_accepted dbx (log s) (append_calls sid written (reader s) m')
          = true /\
          reply_of dbx (log s ++ append_calls sid written (reader s) m')
            (append_call sid written (reader s) m') = Some e)).
Proof.
  induction n as [|n IH]; intros written s Hn; rewrite append_loop_eq.
  - destruct (Z_gt_dec _ _) as [g|g].
    + rewrite (loop_iterations_step _ _ g) in Hn. discriminate.
    + exists 0%nat. rewrite append_calls_0, app_nil_r.
      destruct s; cbn. split; [lia|]. split; [reflexivity|].
      left. repeat split.
  - destruct (Z_gt_dec _ _) as [g|g].
    2:{ rewrite (loop_iterations_exit _ _ g) in Hn. discriminate. }
    rewrite (loop_iterations_step _ _ g) in Hn. injection Hn as Hn.
    unfold UploadSessionAppend, request. cbn [read_body].
    rewrite chunk_eq.
    destruct (append_reply _ _ _ _) as [e|] eqn:Hreply.
    + exists 1%nat. split; [lia|]. split.
      * rewrite append_calls_S, append_calls_0.
        cbn [snd Nat.mul]. rewrite Nat.add_0_r. reflexivity.
      * right. exists 0%nat, e. rewrite append_calls_0, app_nil_r.
        unfold append_call.
        cbn [Nat.mul skipn written_after fst all_accepted reply_of]. auto.
    + match goal with |- context [append_loop _ _ _ _ ?s1] =>
        destruct (IH (Int64.add written chunkSize) s1 Hn)
          as (m & Hm & Hs & Hr) end.
      exists (S m). split; [lia|]. split.
      * rewrite Hs. cbn [reader log].
        rewrite skipn_chunks, append_calls_S, <- app_assoc. reflexivity.
      * cbn [reader log] in Hr.
        destruct Hr as [(Hmn & Hr & Ha)|(m' & e & -> & Hr & Ha & He)].
        -- left. split; [lia|]. split; [rewrite Hr; reflexivity|].
           rewrite append_calls_S. cbn [all_accepted reply_of].
           rewrite Hreply. exact Ha.
        -- right. exists (S m'), e. split; [reflexivity|].
           split; [rewrite Hr; reflexivity|]. split.
           ++ rewrite append_calls_S. cbn [all_accepted reply_of].
              rewrite Hreply. exact Ha.
           ++ rewrite <- app_assoc in He. rewrite append_calls_S.
              unfold append_call in *. cbn [written_after].
              rewrite <- skipn_chunks. exact He.
Qed.

(** The append call of iteration [k] of the loop of a chunked upload is
    its [k + 1]-th append call. *)
Lemma append_call_nth sid r (k : nat) :
  chunkSize + Z.of_nat k * chunkSize < Int64.half_modulus ->
  append_call sid chunkSize (skipn chunk r) k = nth_append sid r (S k).
Proof.
  intros H. unfold append_call, nth_append. pose proof chunkSize_eq as E.
  change Int64.half_modulus with 9223372036854775808 in H.
  rewrite written_after_exact, to_uint64_small, skipn_chunks;
    change Int64.half_modulus with 9223372036854775808; try nia.
  f_equal. f_equal. lia.
Qed.

(** ** The per-file task *)

Lemma upload_task_small dbx arg commitInfo size s :
  size <= chunkSize ->
  upload_task dbx arg commitInfo size s
  = (did_not_upload arg (upload_reply dbx (log s) commitInfo (reader s)),
     mkConn [] (log s ++ [UploadCall commitInfo (reader s)])).
Proof.
  intros H. unfold upload_task, bind.
  destruct (Z.gtb_spec size chunkSize) as [G|_]; [lia|].
  unfold ret, uploadFile, Upload, request. cbn [read_body].
  destruct (upload_reply _ _ _ _); reflexivity.
Qed.

(** A large file: the chunked upload, and then, when it succeeded, the
    single-shot call all the same, over the reader the chunked upload has
    left. *)
Lemma upload_task_large dbx arg commitInfo size s :
  size > chunkSize ->
  upload_task dbx arg commitInfo size s
  = match uploadChunked dbx commitInfo size s with
    | (Some err, s1) => (Some err, s1)
    | (None, s1) =>
        (did_not_upload arg (upload_reply dbx (log s1) commitInfo (reader s1)),
         mkConn [] (log s1 ++ [UploadCall commitInfo (reader s1)]))
    end.
Proof.
  intros H. unfold upload_task, bind.
  destruct (Z.gtb_spec size chunkSize) as [_|G]; [|lia].
  destruct (uploadChunked dbx commitInfo size s) as [[e|] s1]; [reflexivity|].
  unfold ret, uploadFile, Upload, request. cbn [read_body].
  destruct (upload_reply _ _ _ _); reflexivity.
Qed.

Lemma session_calls_carry ci sid r m : Forall (carries ci) (session_calls sid r m).
Proof.
  unfold session_calls, append_calls. constructor; [intros ci' H; discriminate|].
  apply Forall_forall. intros c Hc. apply in_map_iff in Hc.
  destruct Hc as (k & <- & _). intros ci' H. discriminate.
Qed.

Lemma uploadChunked_calls dbx commitInfo sizeTotal s :
  exists new,
    log (snd (uploadChunked dbx commitInfo sizeTotal s)) = log s ++ new /\
    Forall (carries commitInfo) new.
Proof.
  destruct (start_reply dbx (log s) (firstn chunk (reader s))) as [sid|e] eqn:H.
  - destruct (uploadChunked_started dbx commitInfo sizeTotal s sid H)
      as (m & _ & [(m' & e & _ & -> & _)|[_ ->]]); cbn [snd log].
    + eexists. split; [reflexivity|]. apply session_calls_carry.
    + eexists. split; [reflexivity|]. apply Forall_app. split.
      * apply session_calls_carry.
      * constructor; [|constructor]. intros ci' Hc. cbn in Hc. congruence.
  - rewrite (uploadChunked_start_failed _ _ _ _ _ H). cbn [snd log].
    eexists. split; [reflexivity|].
    constructor; [|constructor]. intros ci' Hc. discriminate.
Qed.

Lemma upload_task_calls dbx arg commitInfo size s :
  exists new,
    log (snd (upload_task dbx arg commitInfo size s)) = log s ++ new /\
    Forall (carries commitInfo) new.
Proof.
  assert (Hup : forall b, carries commitInfo (UploadCall commitInfo b))
    by (intros b ci' Hc; cbn in Hc; congruence).
  destruct (Z_gt_dec size chunkSize) as [G|G].
  - rewrite (upload_task_large _ _ _ _ _ G).
    destruct (uploadChunked_calls dbx commitInfo size s) as (new & Hlog & Hall).
    destruct (uploadChunked dbx commitInfo size s) as [[e|] s1];
      cbn [snd log] in *.
    + exists new. auto.
    + exists (new ++ [UploadCall commitInfo (reader s1)]).
      rewrite Hlog, app_assoc. split; [reflexivity|].
      apply Forall_app. split; [exact Hall|]. constructor; [apply Hup|constructor].
  - rewrite upload_task_small by lia. cbn [snd log].
    eexists. split; [reflexivity|]. constructor; [apply Hup|constructor].
Qed.

(** The calls of one task: none when the remote path, the open or the stat
    fails; otherwise calls that all carry the commit metadata built from the
    resolved path and the reading of the clock. *)
Lemma put_task_calls env destination arg w :
  exists new,
    calls (snd (put_task env destination arg w)) = calls w ++ new /\
    match resolve_dst env destination arg with
    | Ok dst =>
        Forall (carries (make_commitInfo dst (time_Now env (ticks w)))) new
    | Err _ => new = []
    end.
Proof.
  unfold put_task.
  destruct (resolve_dst env destination arg) as [dst|e].
  2:{ exists []. rewrite app_nil_r. auto. }
  destruct (os_Open env arg) as [contents|e].
  2:{ exists []. rewrite app_nil_r. auto. }
  destruct (Stat contents) as [info|e].
  2:{ exists []. rewrite app_nil_r. auto. }
  match goal with |- context [upload_task ?d ?a ?c ?z ?s] =>
    destruct (upload_task_calls d a c z s) as (new & Hlog & Hall);
    destruct (upload_task d a c z s) as [err s1] end.
  cbn [snd log calls] in *. exists new. auto.
Qed.

(** ** Facts about the sample inputs *)

Lemma zeros_length n : List.length (zeros n) = n.
Proof. apply repeat_length. Qed.

Lemma firstn_zeros (n m : nat) : firstn n (zeros (n + m)) = zeros n.
Proof.
  induction n as [|n IH]; [reflexivity|].
  cbn [Nat.add zeros repeat firstn]. f_equal. exact IH.
Qed.

Lemma skipn_zeros (n m : nat) : skipn n (zeros (n + m)) = zeros m.
Proof.
  induction n as [|n IH]; [reflexivity|].
  cbn [Nat.add zeros repeat skipn]. exact IH.
Qed.

Lemma sample_conn_size :
  Z.of_nat (List.length (reader sample_conn)) = chunkSize + 1.
Proof.
  cbn [sample_conn reader]. rewrite zeros_length, Nat2Z.inj_add, chunk_Z.
  reflexivity.
Qed.

Lemma chunkSize_bounds : 0 < chunkSize /\ chunkSize + 1 < Int64.half_modulus.
Proof. rewrite chunkSize_eq. split; reflexivity. Qed.

Lemma append_count_one_over : append_count (chunkSize + 1) = 0.
Proof.
  unfold append_count. replace (chunkSize + 1 - chunkSize - 1) with 0 by lia.
  apply Z.div_0_l. rewrite chunkSize_eq. discriminate.
Qed.

Lemma loop_iterations_one_over : loop_iterations (chunkSize + 1) chunkSize = 0%nat.
Proof.
  pose proof chunkSize_bounds.
  rewrite loop_iterations_exact by lia. rewrite append_count_one_over.
  reflexivity.
Qed.

(** * Theorems: the chunked session driver *)



(** C5: in a chunked upload of a file of [sizeTotal] bytes whose start call
    returned the session id [sid], the loop is entered with
    [written = chunkSize]; the [k]-th append call carries [sid] and the
    offset [k * chunkSize], which is the value of [written] at that call, and
    [written] grows by [chunkSize] with every append that the service
    accepts, and only then.  Either the service refuses the [m]-th append
    after accepting the ones before it, and the upload stops there, with
    that error and with [written] still at [m * chunkSize]; or the service
    accepts all the appends, and the finish call follows, carrying [sid] and
    the final value of [written], one chunk for the start call and one for
    each append. *)
Theorem chunked_upload_offsets dbx commitInfo sizeTotal s sid :
  chunkSize < sizeTotal < Int64.half_modulus ->
  start_reply dbx (log s) (firstn chunk (reader s)) = Ok sid ->
  let start := UploadSessionStartCall (firstn chunk (reader s)) in
  let written :=
    snd (fst (append_loop dbx sid sizeTotal chunkSize
                (mkConn (skipn chunk (reader s)) (log s ++ [start])))) in
  let made := issued s (snd (uploadChunked dbx commitInfo sizeTotal s)) in
  let appends := fun n => map (nth_append sid (reader s)) (seq 1 n) in
  exists m : nat,
    Z.of_nat m <= append_count sizeTotal /\
    ((exists m' e,
        m = S m' /\
        all_accepted dbx (log s ++ [start]) (appends m') = true /\
        reply_of dbx (log s ++ start :: appends m')
          (nth_append sid (reader s) m) = Some e /\
        fst (uploadChunked dbx commitInfo sizeTotal s) = Some e /\
        written = Z.of_nat m * chunkSize /\
        made = start :: appends m)
     \/
     (Z.of_nat m = append_count sizeTotal /\
      all_accepted dbx (log s ++ [start]) (appends m) = true /\
      written = (Z.of_nat m + 1) * chunkSize /\
      made = start :: appends m
             ++ [UploadSessionFinishCall
                   (NewUploadSessionFinishArg
                      (NewUploadSessionCursor sid written) commitInfo)
                   (skipn (S m * chunk) (reader s))])).
Proof.
  intros [Hlo Hhi] Hstart start written made appends.
  subst written made appends.
  rewrite uploadChunked_eq, Hstart. cbv zeta. fold start.
  set (s1 := mkConn (skipn chunk (reader s)) (log s ++ [start])).
  destruct (append_loop_accepted dbx sid sizeTotal _ chunkSize s1 eq_refl)
    as (m & Hm & Hs & Hr).
  pose proof chunkSize_eq as E.
  change Int64.half_modulus with 9223372036854775808 in *.
  rewrite loop_iterations_exact in *
    by (change Int64.half_modulus with 9223372036854775808; lia).
  destruct (append_count_bounds sizeTotal ltac:(lia)) as [Hc0 Hc1].
  assert (Hrange : forall k, (k <= m)%nat ->
             chunkSize + Z.of_nat k * chunkSize < Int64.half_modulus)
    by (intros k Hk; change Int64.half_modulus with 9223372036854775808; nia).
  destruct (append_loop dbx sid sizeTotal chunkSize s1) as [[err w] s2].
  cbn [fst snd] in *. subst s2. exists m. split; [lia|].
  unfold s1 in *. cbn [reader log snd] in *.
  destruct Hr as [(Hmn & Hr & Ha)|(m' & e & Hmm & Hr & Ha & He)];
    injection Hr as -> ->.
  - right. split; [lia|].
    rewrite (append_calls_offsets _ _ _ (Hrange m (le_n m))) in Ha.
    split; [exact Ha|].
    rewrite written_after_exact
      by (change Int64.half_modulus with 9223372036854775808; lia).
    split; [lia|]. cbn [snd log]. rewrite <- !app_assoc. cbn [app].
    rewrite issued_app, skipn_chunks.
    rewrite (append_calls_offsets _ _ _ (Hrange m (le_n m))).
    rewrite to_uint64_small
      by (change Int64.half_modulus with 9223372036854775808; lia).
    reflexivity.
  - left. exists m', e. subst m. split; [reflexivity|].
    assert (Hm' : chunkSize + Z.of_nat m' * chunkSize < Int64.half_modulus)
      by (apply Hrange; lia).
    rewrite (append_calls_offsets _ _ _ Hm') in Ha, He.
    rewrite (append_call_nth _ _ _ Hm'), <- app_assoc in He. cbn [app] in He.
    split; [exact Ha|]. split; [exact He|]. split; [reflexivity|].
    rewrite written_after_exact
      by (change Int64.half_modulus with 9223372036854775808; lia).
    split; [lia|]. cbn [snd log]. rewrite <- app_assoc. cbn [app].
    rewrite issued_app.
    rewrite (append_calls_offsets _ _ _ (Hrange (S m') (le_n _))).
    reflexivity.
Qed.

Lemma accepting_reply h c : reply_of accepting h c = None.
Proof. destruct c; reflexivity. Qed.

Lemma two_chunk_bounds :
  chunkSize < 2 * chunkSize + 1 < Int64.half_modulus.
Proof. rewrite chunkSize_eq. split; reflexivity. Qed.

Lemma append_count_two_over : append_count (2 * chunkSize + 1) = 1.
Proof. unfold append_count. rewrite chunkSize_eq. reflexivity. Qed.

Lemma chunked_upload_offsets_witness :
  let s := two_chunk_conn in
  let sizeTotal := 2 * chunkSize + 1 in
  let start := UploadSessionStartCall (firstn chunk (reader s)) in
  let written :=
    snd (fst (append_loop accepting "session-1" sizeTotal chunkSize
                (mkConn (skipn chunk (reader s)) (log s ++ [start])))) in
  written = 2 * chunkSize /\
  issued s (snd (uploadChunked accepting sample_commitInfo sizeTotal s))
  = [start;
     nth_append "session-1" (reader s) 1;
     UploadSessionFinishCall
       (NewUploadSessionFinishArg
          (NewUploadSessionCursor "session-1" written) sample_commitInfo)
       (skipn (2 * chunk) (reader s))].
Proof.
  pose proof (chunked_upload_offsets accepting sample_commitInfo
                (2 * chunkSize + 1) two_chunk_conn "session-1"
                two_chunk_bounds eq_refl) as H.
  cbv zeta in *.
  destruct H as (m & _ & [(m' & e & _ & _ & He & _)|(Hm & _ & Hw & Hmade)]).
  - rewrite accepting_reply in He. discriminate He.
  - rewrite append_count_two_over in Hm.
    assert (m = 1%nat) by lia. subst m.
    change (Z.of_nat 1 + 1) with 2 in Hw.
    split; [exact Hw | exact Hmade].
Defined.


Example append_count_examples :
  append_count (chunkSize + 1) = 0 /\ append_count (2 * chunkSize) = 0 /\
  append_count (2 * chunkSize + 1) = 1 /\ append_count 41943040 = 1.
Proof. rewrite chunkSize_eq. repeat split. Qed.

(** * Theorems: the upload orchestrator *)

(** A large file on a service that accepts the session: after the start
    call, the appends and the finish call, the task goes on to the
    single-shot call, whose body is what the finish call has left of the
    reader: nothing. *)
Lemma upload_task_large_accepted dbx arg commitInfo size s sid :
  size > chunkSize ->
  start_reply dbx (log s) (firstn chunk (reader s)) = Ok sid ->
  accepts_appends dbx ->
  let m := loop_iterations size chunkSize in
  let finish :=
    UploadSessionFinishCall (finish_arg sid commitInfo m)
      (skipn (m * chunk) (skipn chunk (reader s))) in
  finish_reply dbx (log s ++ session_calls sid (reader s) m)
    (finish_arg sid commitInfo m)
    (skipn (m * chunk) (skipn chunk (reader s))) = None ->
  snd (upload_task dbx arg commitInfo size s)
  = mkConn [] (log s ++ session_calls sid (reader s) m
               ++ [finish; UploadCall commitInfo []]).
Proof.
  intros Hsize Hstart Hacc m finish Hfin.
  rewrite (upload_task_large _ _ _ _ _ Hsize).
  rewrite (uploadChunked_appended _ _ _ _ _ Hstart Hacc). fold m.
  rewrite Hfin. cbn [snd reader log].
  rewrite <- !app_assoc. reflexivity.
Qed.

(** The task, once the remote path is resolved and the file is open. *)
Lemma put_task_uploads env destination arg w dst contents info :
  resolve_dst env destination arg = Ok dst ->
  os_Open env arg = Ok contents ->
  Stat contents = Ok info ->
  put_task env destination arg w
  = (fst (upload_task (files_New env) arg
            (make_commitInfo dst (time_Now env (ticks w))) (Size info)
            (mkConn (file_bytes contents) (calls w))),
     mkWorld
       (log (snd (upload_task (files_New env) arg
                    (make_commitInfo dst (time_Now env (ticks w))) (Size info)
                    (mkConn (file_bytes contents) (calls w)))))
       (S (ticks w)) (tasks w)).
Proof.
  intros H1 H2 H3. unfold put_task. rewrite H1, H2, H3.
  destruct (upload_task _ _ _ _ _) as [err c]. reflexivity.
Qed.

(** A file of at most one chunk: one single-shot call with the whole
    stream, and no session call. *)
Lemma put_task_small env destination arg w dst contents info :
  resolve_dst env destination arg = Ok dst ->
  os_Open env arg = Ok contents ->
  Stat contents = Ok info ->
  Size info <= chunkSize ->
  calls (snd (put_task env destination arg w))
  = calls w ++ [UploadCall (make_commitInfo dst (time_Now env (ticks w)))
                  (file_bytes contents)].
Proof.
  intros H1 H2 H3 Hsize.
  rewrite (put_task_uploads _ _ _ _ _ _ _ H1 H2 H3).
  rewrite (upload_task_small _ _ _ _ _ Hsize). reflexivity.
Qed.

(** A file of more than one chunk, on a service that accepts every call. *)
Lemma put_task_large_accepted env destination arg w dst contents info sid :
  resolve_dst env destination arg = Ok dst ->
  os_Open env arg = Ok contents ->
  Stat contents = Ok info ->
  Size info > chunkSize ->
  (forall h b, start_reply (files_New env) h b = Ok sid) ->
  accepts_appends (files_New env) ->
  (forall h a b, finish_reply (files_New env) h a b = None) ->
  (forall h a b, upload_reply (files_New env) h a b = None) ->
  let m := loop_iterations (Size info) chunkSize in
  let commitInfo := make_commitInfo dst (time_Now env (ticks w)) in
  put_task env destination arg w
  = (None,
     mkWorld
       (calls w ++ session_calls sid (file_bytes contents) m
        ++ [UploadSessionFinishCall (finish_arg sid commitInfo m)
              (skipn (m * chunk) (skipn chunk (file_bytes contents)));
            UploadCall commitInfo []])
       (S (ticks w)) (tasks w)).
Proof.
  intros H1 H2 H3 Hsize Hstart Happ Hfin Hup m commitInfo.
  rewrite (put_task_uploads _ _ _ _ _ _ _ H1 H2 H3). fold commitInfo.
  rewrite (upload_task_large _ _ _ _ _ Hsize).
  rewrite (uploadChunked_appended _ _ _ _ sid (Hstart _ _) Happ). fold m.
  rewrite Hfin, Hup. cbn [fst snd reader log did_not_upload].
  rewrite <- !app_assoc. reflexivity.
Qed.

Lemma session_calls_0 sid r :
  session_calls sid r 0 = [UploadSessionStartCall (firstn chunk r)].
Proof. reflexivity. Qed.

Lemma skipn_no_chunks {A} (l : list A) : skipn (0 * chunk) l = l.
Proof. reflexivity. Qed.

Lemma finish_arg_0 sid commitInfo :
  finish_arg sid commitInfo 0
  = NewUploadSessionFinishArg (NewUploadSessionCursor sid chunkSize) commitInfo.
Proof.
  unfold finish_arg. cbn [written_after].
  rewrite to_uint64_small by (pose proof chunkSize_bounds; lia).
  reflexivity.
Qed.

Lemma file_bytes_mkFile b st : file_bytes (mkFile b st) = b.
Proof. reflexivity. Qed.

Lemma big_file_bytes : file_bytes big_file = zeros (chunk + 1).
Proof. unfold big_file. apply file_bytes_mkFile. Qed.

Lemma big_info_Size : Size big_info = chunkSize + 1.
Proof. reflexivity. Qed.

(** C1: the claim fails on a file of [chunkSize + 1] bytes.  The task makes
    the start call with [chunkSize] bytes, no append call, the finish call
    with the last byte, and then one more call: a single-shot upload with an
    empty body and the same commit metadata. *)
Theorem large_file_then_single_shot :
  put_task (sample_env accepting big_file zero_Time) "" "big.bin" world0
  = (None,
     mkWorld
       [UploadSessionStartCall (zeros chunk);
        UploadSessionFinishCall
          (NewUploadSessionFinishArg
             (NewUploadSessionCursor "session-1" chunkSize) sample_commitInfo)
          [x00];
        UploadCall sample_commitInfo []]
       1 []).
Proof.
  assert (Hsize : Size big_info > chunkSize) by (rewrite big_info_Size; lia).
  rewrite (put_task_large_accepted
             (sample_env accepting big_file zero_Time) "" "big.bin" world0
             "/big.bin" big_file big_info "session-1"
             eq_refl eq_refl eq_refl Hsize
             (fun h b => eq_refl) (fun h a b => eq_refl)
             (fun h a b => eq_refl) (fun h a b => eq_refl)).
  rewrite big_info_Size, loop_iterations_one_over.
  rewrite session_calls_0, skipn_no_chunks, finish_arg_0, big_file_bytes.
  rewrite firstn_zeros, skipn_zeros.
  reflexivity.
Qed.

(** ** The join *)

Lemma put_task_tasks env destination arg w :
  tasks (snd (put_task env destination arg w)) = tasks w.
Proof.
  unfold put_task.
  destruct (resolve_dst env destination arg); [|reflexivity].
  destruct (os_Open env arg) as [contents|]; [|reflexivity].
  destruct (Stat contents); [|reflexivity].
  destruct (upload_task _ _ _ _ _). reflexivity.
Qed.

(** Every argument gets its task, and every task runs to its end. *)
Lemma go_tasks_run env destination args :
  forall w,
    exists errs,
      List.length errs = List.length args /\
      tasks (fold_left (go_task env destination) args w)
      = tasks w ++ combine args errs.
Proof.
  induction args as [|arg args IH]; intros w.
  - exists []. cbn. rewrite app_nil_r. auto.
  - cbn [fold_left].
    destruct (IH (go_task env destination w arg)) as (errs & Hlen & Htasks).
    exists (fst (put_task env destination arg w) :: errs).
    split; [cbn; lia|]. rewrite Htasks. unfold go_task.
    pose proof (put_task_tasks env destination arg w) as Hw.
    destruct (put_task env destination arg w) as [err w'].
    cbn [tasks fst snd combine] in *. rewrite Hw, <- app_assoc. reflexivity.
Qed.

(** C3: on a non-empty argument list, when the destination flag can be
    read, [put] runs one task per argument to its end and returns [nil],
    whatever the tasks returned: their errors are dropped. *)
Theorem put_returns_nil env args w destination :
  args <> [] ->
  GetString_destination env = Ok destination ->
  fst (put env args w) = None /\
  exists errs,
    List.length errs = List.length args /\
    tasks (snd (put env args w)) = tasks w ++ combine args errs.
Proof.
  intros Hargs Hflag. unfold put.
  destruct args as [|arg args]; [contradiction|].
  cbn [List.length Nat.eqb]. rewrite Hflag. cbn [fst snd].
  split; [reflexivity|]. apply (go_tasks_run env destination (arg :: args)).
Qed.

Lemma put_returns_nil_witness :
  fst (put no_files_env ["a.txt"; "b.txt"] world0) = None /\
  exists errs,
    List.length errs = List.length ["a.txt"; "b.txt"] /\
    tasks (snd (put no_files_env ["a.txt"; "b.txt"] world0))
    = tasks world0 ++ combine ["a.txt"; "b.txt"] errs.
Proof.
  apply (put_returns_nil no_files_env ["a.txt"; "b.txt"] world0 "").
  - discriminate.
  - reflexivity.
Defined.

(** Every task failed, and the command reports success. *)
Example put_all_failed :
  put no_files_env ["a.txt"; "b.txt"] world0
  = (None,
     mkWorld [] 0
       [("a.txt", Some "open a.txt: no such file or directory");
        ("b.txt", Some "open b.txt: no such file or directory")]).
Proof. reflexivity. Qed.

(** Uploads that the service refuses are dropped the same way. *)
Example put_all_refused :
  fst (put (sample_env refusing small_file zero_Time) ["a.txt"; "b.txt"] world0)
  = None /\
  map snd
    (tasks (snd (put (sample_env refusing small_file zero_Time)
                     ["a.txt"; "b.txt"] world0)))
  = [Some "Did not upload a.txt"; Some "Did not upload b.txt"].
Proof. split; reflexivity. Qed.

(** C9: with no operands [put] returns the missing-operands error; it
    starts no task and makes no call. *)
Theorem put_no_operands env w :
  put env [] w = (Some "missing operands to `put`", w).
Proof. reflexivity. Qed.

(** ** Remote paths *)

(** C4: the claim fails on a source with a directory component.  With the
    destination ["/x"], the source ["dir/a.txt"] is uploaded to
    ["/x/dir/a.txt"]: the path handed to [validatePath] is built from the
    whole argument, not from its base name, which is ["a.txt"]. *)
Theorem destination_keeps_source_directory :
  (forall env, resolve_dst env "/x" "dir/a.txt" = validatePath env "/x/dir/a.txt")
  /\ path_Base "dir/a.txt" = "a.txt"
  /\ calls (snd (put_task (sample_env accepting small_file zero_Time)
                          "/x" "dir/a.txt" world0))
     = [UploadCall (make_commitInfo "/x/dir/a.txt" zero_Time) [x01]].
Proof. repeat split. Qed.

(** C7: [fullName] strips one trailing slash of the destination, and
    without a destination every call of the task that carries commit
    metadata carries the path ["/"] followed by the base name of the
    source. *)
Theorem default_remote_path :
  fullName "a.txt" "/x/" = "/x/a.txt" /\
  fullName "a.txt" "/x" = "/x/a.txt" /\
  forall env arg,
    resolve_dst env "" arg = Ok ("/" ++ path_Base arg)%string /\
    forall w, exists new,
      calls (snd (put_task env "" arg w)) = calls w ++ new /\
      Forall (fun c => forall ci, call_commit c = Some ci ->
                Path ci = ("/" ++ path_Base arg)%string) new.
Proof.
  split; [reflexivity|]. split; [reflexivity|]. intros env arg.
  split; [reflexivity|]. intros w.
  destruct (put_task_calls env "" arg w) as (new & Hcalls & Hnew).
  exists new. split; [exact Hcalls|].
  change (resolve_dst env "" arg)
    with (@Ok string ("/" ++ path_Base arg)%string) in Hnew.
  eapply Forall_impl; [|exact Hnew].
  intros c Hc ci Hci. rewrite (Hc ci Hci). reflexivity.
Qed.

(** Without a destination, a source in a directory goes to the root. *)
Example default_remote_path_run :
  calls (snd (put_task (sample_env accepting small_file zero_Time)
                       "" "dir/a.txt" world0))
  = [UploadCall (make_commitInfo "/a.txt" zero_Time) [x01]].
Proof. reflexivity. Qed.

(** ** The client-modified timestamp *)

(** Rounding to the second: the result is a whole number of seconds, at most
    half a second after the instant and less than half a second before it. *)
Lemma Time_Round_Second (t : Time) :
  let sent := Time_Round t Second in
  loc sent = loc t /\
  nanos sent = (nanos t + 500000000) / Second * Second /\
  2 * (nanos sent - nanos t) <= Second /\
  2 * (nanos t - nanos sent) < Second.
Proof.
  unfold Time_Round, Second. cbn [Z.leb Z.compare].
  pose proof (Z.div_mod (nanos t) 1000000000 ltac:(lia)) as D.
  pose proof (Z.mod_pos_bound (nanos t) 1000000000 ltac:(lia)) as B.
  set (q := nanos t / 1000000000) in *.
  set (r := nanos t mod 1000000000) in *.
  destruct (Z.ltb_spec (r + r) 1000000000) as [L|L]; cbn [nanos loc].
  - replace (nanos t + 500000000) with (r + 500000000 + q * 1000000000) by lia.
    rewrite Z.div_add by lia. rewrite (Z.div_small (r + 500000000)) by lia.
    repeat split; lia.
  - replace (nanos t + 500000000)
      with (r - 500000000 + (q + 1) * 1000000000) by lia.
    rewrite Z.div_add by lia. rewrite (Z.div_small (r - 500000000)) by lia.
    repeat split; lia.
Qed.

(** C8, as stated, fails: with the clock at 1.6 s the upload is stamped
    2 s, which is after the reading of the clock, not the 1 s that
    rounding down gives. *)
Lemma timestamp_rounded_up :
  calls (snd (put_task (sample_env accepting small_file late_clock)
                       "" "a.txt" world0))
  = [UploadCall
       (mkCommitInfo "/a.txt" "overwrite" false (mkTime 2000000000 UTC) false)
       [x01]]
  /\ ~ rounded_down late_clock (mkTime 2000000000 UTC).
Proof.
  split; [reflexivity|]. intros [_ H]. discriminate H.
Qed.

(** C8, amended: every call of a task that carries commit metadata carries
    a client-modified timestamp in UTC that is the reading of the clock
    rounded to the nearest whole second, halves going up: at most half a
    second after the reading and less than half a second before it. *)
Theorem timestamp_rounded_to_nearest env destination arg w :
  exists new,
    calls (snd (put_task env destination arg w)) = calls w ++ new /\
    Forall (fun c => forall ci, call_commit c = Some ci ->
              let now := time_Now env (ticks w) in
              let sent := ClientModified ci in
              loc sent = UTC /\
              nanos sent = (nanos now + 500000000) / Second * Second /\
              2 * (nanos sent - nanos now) <= Second /\
              2 * (nanos now - nanos sent) < Second) new.
Proof.
  destruct (put_task_calls env destination arg w) as (new & Hcalls & Hnew).
  exists new. split; [exact Hcalls|].
  destruct (resolve_dst env destination arg) as [dst|e].
  2:{ subst new. constructor. }
  eapply Forall_impl; [|exact Hnew].
  intros c Hc ci Hci. rewrite (Hc ci Hci).
  exact (Time_Round_Second (Time_UTC (time_Now env (ticks w)))).
Qed.

Lemma put_task_ignores_ModTime f env destination arg w :
  put_task (with_ModTime f env) destination arg w
  = put_task env destination arg w.
Proof.
  unfold put_task.
  change (resolve_dst (with_ModTime f env) destination arg)
    with (resolve_dst env destination arg).
  destruct (resolve_dst env destination arg) as [dst|e]; [|reflexivity].
  cbn [with_ModTime os_Open time_Now files_New].
  destruct (os_Open env arg) as [contents|e]; [|reflexivity].
  cbn [Stat file_bytes].
  destruct (Stat contents) as [info|e]; reflexivity.
Qed.

(** C10: the client-modified timestamp of every call that carries commit
    metadata is computed from the reading of the wall clock taken by the
    task, and the modification time that [Stat] reports plays no part: with
    any other modification times the command returns the same value, makes
    the same calls and leaves the same state. *)
Theorem client_modified_from_clock :
  (forall env destination arg w, exists new,
      calls (snd (put_task env destination arg w)) = calls w ++ new /\
      Forall (fun c => forall ci, call_commit c = Some ci ->
                ClientModified ci
                = Time_Round (Time_UTC (time_Now env (ticks w))) Second) new)
  /\
  (forall f env args w, put (with_ModTime f env) args w = put env args w).
Proof.
  split.
  - intros env destination arg w.
    destruct (put_task_calls env destination arg w) as (new & Hcalls & Hnew).
    exists new. split; [exact Hcalls|].
    destruct (resolve_dst env destination arg) as [dst|e].
    2:{ subst new. constructor. }
    eapply Forall_impl; [|exact Hnew].
    intros c Hc ci Hci. rewrite (Hc ci Hci). reflexivity.
  - intros f env args w. unfold put.
    destruct (List.length args =? 0)%nat; [reflexivity|].
    change (GetString_destination (with_ModTime f env))
      with (GetString_destination env).
    destruct (GetString_destination env) as [destination|e]; [|reflexivity].
    f_equal. revert w. induction args as [|arg args IH]; intros w.
    + reflexivity.
    + cbn [fold_left]. unfold go_task at 2 4.
      rewrite put_task_ignores_ModTime. apply IH.
Qed.

(** A file whose modification time is long past is stamped with the
    reading of the clock all the same. *)
Example client_modified_run :
  map call_commit
    (calls (snd (put_task
                   (sample_env accepting
                      (mkFile [x01] (Ok (mkFileInfo 1 (mkTime 5 Local))))
                      (mkTime 63000000000400000000 Local))
                   "" "a.txt" world0)))
  = [Some (mkCommitInfo "/a.txt" "overwrite" false
             (mkTime 63000000000000000000 UTC) false)].
Proof. reflexivity. Qed.


(** * Further properties *)

(** ** Strings *)

Lemma length_append (a b : string) :
  String.length (a ++ b) = (String.length a + String.length b)%nat.
Proof. induction a as [|c a IH]; cbn; [reflexivity | rewrite IH; reflexivity]. Qed.

Lemma substring_whole (s : string) : substring 0 (String.length s) s = s.
Proof. induction s as [|c s IH]; cbn; [reflexivity | rewrite IH; reflexivity]. Qed.

Lemma substring_prefix (a b : string) :
  substring 0 (String.length a) (a ++ b) = a.
Proof.
  induction a as [|c a IH]; cbn.
  - destruct b; reflexivity.
  - rewrite IH. reflexivity.
Qed.

Lemma substring_suffix (a b : string) (k : nat) :
  substring (String.length a) k (a ++ b) = substring 0 k b.
Proof. induction a as [|c a IH]; cbn; [reflexivity | exact IH]. Qed.

Lemma HasSuffix_append (a suffix : string) :
  strings_HasSuffix (a ++ suffix) suffix = true.
Proof.
  unfold strings_HasSuffix, slice_from. rewrite length_append.
  replace (String.length a + String.length suffix - String.length suffix)%nat
    with (String.length a) by lia.
  replace (String.length a + String.length suffix - String.length a)%nat
    with (String.length suffix) by lia.
  rewrite substring_suffix, substring_whole, String.eqb_refl.
  rewrite andb_true_r. apply Nat.leb_le. lia.
Qed.

Lemma TrimSuffix_append (a suffix : string) :
  strings_TrimSuffix (a ++ suffix) suffix = a.
Proof.
  unfold strings_TrimSuffix. rewrite HasSuffix_append, length_append.
  replace (String.length a + String.length suffix - String.length suffix)%nat
    with (String.length a) by lia.
  apply substring_prefix.
Qed.

(** X1: [fullName] strips exactly one trailing slash of the destination.
    A destination written with a trailing slash gives the destination
    without it, a slash and the file name, whatever the destination ends
    with before that slash; so a destination that does not end with a slash
    gives the same path with or without one added. *)
Theorem fullName_trailing_slash (fileName destination : string) :
  fullName fileName (destination ++ "/")
  = (destination ++ "/" ++ fileName)%string
  /\ (strings_HasSuffix destination "/" = false ->
      fullName fileName destination = fullName fileName (destination ++ "/")).
Proof.
  unfold fullName. rewrite TrimSuffix_append. split; [reflexivity|].
  intros H. unfold strings_TrimSuffix. rewrite H. reflexivity.
Qed.

Example fullName_double_slash : fullName "a.txt" "/x//" = "/x//a.txt".
Proof. reflexivity. Qed.

Lemma LastIndex_lower (s : string) : -1 <= strings_LastIndex_slash s.
Proof.
  induction s as [|c s IH]; cbn [strings_LastIndex_slash]; [lia|].
  destruct (Z.leb_spec 0 (strings_LastIndex_slash s)); [lia|].
  destruct (Ascii.eqb c slash); lia.
Qed.

Lemma LastIndex_none (s : string) :
  strings_LastIndex_slash s < 0 -> has_slash s = false.
Proof.
  induction s as [|c s IH]; cbn [strings_LastIndex_slash has_slash];
    [reflexivity|].
  destruct (Z.leb_spec 0 (strings_LastIndex_slash s)); [lia|].
  destruct (Ascii.eqb c slash); [lia|]. intros _. apply IH. lia.
Qed.

Lemma slice_from_S (n : nat) (c : ascii) (s : string) :
  slice_from (S n) (String c s) = slice_from n s.
Proof. reflexivity. Qed.

Lemma slice_from_0 (s : string) : slice_from 0 s = s.
Proof. unfold slice_from. rewrite Nat.sub_0_r. apply substring_whole. Qed.

(** What follows the last slash holds no slash. *)
Lemma slice_after_LastIndex (s : string) :
  0 <= strings_LastIndex_slash s ->
  has_slash (slice_from (Z.to_nat (strings_LastIndex_slash s + 1)) s) = false.
Proof.
  induction s as [|c s IH]; cbn [strings_LastIndex_slash]; [lia|].
  pose proof (LastIndex_lower s) as L.
  destruct (Z.leb_spec 0 (strings_LastIndex_slash s)) as [H|H].
  - intros _.
    replace (Z.to_nat (strings_LastIndex_slash s + 1 + 1))
      with (S (Z.to_nat (strings_LastIndex_slash s + 1))) by lia.
    rewrite slice_from_S. apply IH, H.
  - destruct (Ascii.eqb c slash); [|lia]. intros _.
    change (Z.to_nat (0 + 1)) with 1%nat.
    rewrite slice_from_S, slice_from_0. apply LastIndex_none, H.
Qed.

Lemma path_Base_shape (p : string) :
  path_Base p <> "" /\ (path_Base p = "/" \/ has_slash (path_Base p) = false).
Proof.
  unfold path_Base. destruct (String.eqb p ""); [split; [discriminate|auto]|].
  set (q := strip_trailing_slashes p).
  assert (H : has_slash (if 0 <=? strings_LastIndex_slash q
                         then slice_from (Z.to_nat (strings_LastIndex_slash q + 1)) q
                         else q) = false).
  { destruct (Z.leb_spec 0 (strings_LastIndex_slash q)) as [L|L].
    - apply slice_after_LastIndex, L.
    - apply LastIndex_none, L. }
  destruct (if 0 <=? strings_LastIndex_slash q then _ else q) as [|c r] eqn:E.
  - cbn. split; [discriminate|auto].
  - cbn [String.eqb]. split; [discriminate|]. right. exact H.
Qed.

(** X2: without a destination a source is always uploaded directly under
    the root: the remote path is a slash followed by a non-empty name that
    holds no slash, or that is a single slash when the argument consists of
    slashes only. *)
Theorem default_path_under_root env arg :
  exists name,
    resolve_dst env "" arg = Ok ("/" ++ name)%string /\
    name <> "" /\
    (name = "/" \/ has_slash name = false).
Proof.
  exists (path_Base arg). split; [reflexivity|]. apply path_Base_shape.
Qed.

Example default_path_edge_cases :
  forall env,
    resolve_dst env "" "" = Ok "/." /\
    resolve_dst env "" "///" = Ok "//" /\
    resolve_dst env "" "/home/u/a.txt" = Ok "/a.txt" /\
    resolve_dst env "" "photos/" = Ok "/photos".
Proof. intros env. repeat split. Qed.

(** ** Failing fast *)

(** X3: a chunked upload stops at the first call the service refuses and
    returns the error of that call; it returns [nil] only when the service
    has accepted every call and the last of them is the finish call.  In
    other words the calls made are some calls that were all accepted,
    followed by one last call whose answer is the value returned; the first
    call made is the start call, no call before the last is a finish call,
    and after a run that returned [nil] the last call is the finish call. *)
Theorem uploadChunked_fail_fast dbx commitInfo sizeTotal s :
  exists init last,
    log (snd (uploadChunked dbx commitInfo sizeTotal s))
    = log s ++ init ++ [last] /\
    all_accepted dbx (log s) init = true /\
    fst (uploadChunked dbx commitInfo sizeTotal s)
    = reply_of dbx (log s ++ init) last /\
    is_start (hd last init) = true /\
    existsb is_finish init = false /\
    (fst (uploadChunked dbx commitInfo sizeTotal s) = None ->
     is_finish last = true).
Proof.
  rewrite uploadChunked_eq. cbv zeta.
  set (start := UploadSessionStartCall (firstn chunk (reader s))).
  destruct (start_reply dbx (log s) (firstn chunk (reader s)))
    as [sid|e] eqn:Hstart.
  - set (s1 := mkConn (skipn chunk (reader s)) (log s ++ [start])).
    destruct (append_loop_accepted dbx sid sizeTotal _ chunkSize s1 eq_refl)
      as (m & _ & Hs & Hr).
    destruct (append_loop dbx sid sizeTotal chunkSize s1) as [[err w] s2].
    cbn [fst snd] in Hs, Hr. subst s2. unfold s1 in *. cbn [reader log] in *.
    destruct Hr as [(_ & Hr & Ha)|(m' & e & -> & Hr & Ha & He)];
      injection Hr as -> ->.
    + exists (start :: append_calls sid chunkSize (skipn chunk (reader s)) m).
      eexists. cbn [snd fst log]. split; [|split; [|split; [|split; [|split]]]].
      * rewrite <- !app_assoc. reflexivity.
      * unfold start at 1. cbn [all_accepted reply_of]. rewrite Hstart.
        exact Ha.
      * cbn [reply_of]. rewrite <- app_assoc. reflexivity.
      * reflexivity.
      * apply (no_finish_in_session sid (reader s) m).
      * reflexivity.
    + exists (start :: append_calls sid chunkSize (skipn chunk (reader s)) m'),
             (append_call sid chunkSize (skipn chunk (reader s)) m').
      cbn [snd fst log]. split; [|split; [|split; [|split; [|split]]]].
      * rewrite append_calls_snoc, <- !app_assoc. reflexivity.
      * unfold start at 1. cbn [all_accepted reply_of]. rewrite Hstart.
        exact Ha.
      * rewrite <- app_assoc in He. symmetry. exact He.
      * reflexivity.
      * apply (no_finish_in_session sid (reader s) m').
      * discriminate.
  - exists [], start. cbn [fst snd log app all_accepted hd existsb].
    split; [reflexivity|]. split; [reflexivity|]. split.
    + rewrite app_nil_r. unfold start. cbn [reply_of]. rewrite Hstart.
      reflexivity.
    + split; [reflexivity|]. split; [reflexivity|discriminate].
Qed.

(** ** Conservation of the bytes *)

Lemma uploadChunked_conserved dbx commitInfo sizeTotal s :
  conserved s (snd (uploadChunked dbx commitInfo sizeTotal s)) /\
  (fst (uploadChunked dbx commitInfo sizeTotal s) = None ->
   reader (snd (uploadChunked dbx commitInfo sizeTotal s)) = []).
Proof.
  destruct (start_reply dbx (log s) (firstn chunk (reader s))) as [sid|e] eqn:H.
  - destruct (uploadChunked_started dbx commitInfo sizeTotal s sid H)
      as (m & _ & [(m' & e & _ & -> & _)|[_ ->]]); cbn [fst snd reader log].
    + split; [|discriminate]. eexists. split; [reflexivity|].
      rewrite session_calls_bodies, skipn_chunks. apply firstn_skipn.
    + split; [|reflexivity]. eexists. split; [reflexivity|].
      rewrite map_app, concat_app, session_calls_bodies, app_nil_r.
      cbn [map List.concat call_body]. rewrite app_nil_r, skipn_chunks.
      apply firstn_skipn.
  - rewrite (uploadChunked_start_failed _ _ _ _ _ H). cbn [fst snd reader log].
    split; [|discriminate]. eexists. split; [reflexivity|].
    cbn [map List.concat call_body]. rewrite app_nil_r. apply firstn_skipn.
Qed.

(** X4: whatever the service answers, the bodies of the calls of a chunked
    upload, concatenated in the order of the calls, followed by what is left
    in the reader, are the stream the reader held: no byte is lost, sent
    twice or out of order, also when the upload stops on an error.  When the
    upload returns [nil] nothing is left in the reader. *)
Theorem uploadChunked_conserves_bytes dbx commitInfo sizeTotal s :
  conserved s (snd (uploadChunked dbx commitInfo sizeTotal s)) /\
  (fst (uploadChunked dbx commitInfo sizeTotal s) = None ->
   reader (snd (uploadChunked dbx commitInfo sizeTotal s)) = []).
Proof. apply uploadChunked_conserved. Qed.

(** X5: the same holds of the whole upload of one file, on the single-shot
    path and on the chunked path followed by the single-shot call: the
    bodies of all its calls followed by what the reader still holds are the
    contents of the file, and after a run that returned [nil] the reader is
    empty. *)
Theorem upload_task_conserves_bytes dbx arg commitInfo size s :
  conserved s (snd (upload_task dbx arg commitInfo size s)) /\
  (fst (upload_task dbx arg commitInfo size s) = None ->
   reader (snd (upload_task dbx arg commitInfo size s)) = []).
Proof.
  destruct (Z_gt_dec size chunkSize) as [G|G].
  - rewrite (upload_task_large _ _ _ _ _ G).
    destruct (uploadChunked_conserved dbx commitInfo size s)
      as [(new & Hlog & Hbytes) Hnil].
    destruct (uploadChunked dbx commitInfo size s) as [[e|] s1];
      cbn [fst snd reader log] in *.
    + split; [|discriminate]. exists new. auto.
    + split; [|reflexivity].
      exists (new ++ [UploadCall commitInfo (reader s1)]).
      rewrite Hlog, app_assoc. split; [reflexivity|].
      rewrite map_app, concat_app, app_nil_r.
      cbn [map List.concat call_body]. rewrite app_nil_r. exact Hbytes.
  - rewrite upload_task_small by lia. cbn [fst snd reader log].
    split; [|reflexivity]. eexists. split; [reflexivity|].
    cbn [map List.concat call_body]. rewrite !app_nil_r. reflexivity.
Qed.

(** ** Offsets and bytes sent *)

Lemma offsets_match_appends sid fin (m : nat) :
  forall written r,
    0 <= written ->
    written + Z.of_nat m * chunkSize < Int64.half_modulus ->
    Z.of_nat m * chunkSize <= Z.of_nat (List.length r) ->
    offsets_match written (append_calls sid written r m ++ fin)
    = offsets_match (written + Z.of_nat m * chunkSize) fin.
Proof.
  pose proof chunkSize_eq as E. pose proof chunk_Z as Hchunk.
  induction m as [|m IH]; intros written r H0 H1 H2.
  - rewrite append_calls_0. cbn [app]. f_equal. lia.
  - rewrite append_calls_S. cbn [app offsets_match call_offset Offset call_body].
    change Int64.half_modulus with 9223372036854775808 in *.
    rewrite to_uint64_small
      by (change Int64.half_modulus with 9223372036854775808; lia).
    rewrite Z.eqb_refl. cbn [andb].
    assert (Hadd : Int64.add written chunkSize = written + chunkSize).
    { unfold Int64.add. apply wrap_small. unfold Int64.in_range.
      change Int64.half_modulus with 9223372036854775808. lia. }
    assert (Hlen : Z.of_nat (List.length (firstn chunk r)) = chunkSize)
      by (rewrite length_firstn; lia).
    rewrite Hadd, Hlen, IH.
    + f_equal. lia.
    + lia.
    + change Int64.half_modulus with 9223372036854775808. lia.
    + rewrite length_skipn. lia.
Qed.

(** X6: over a stream of [sizeTotal] bytes, with [sizeTotal] above
    [chunkSize] and in the range of [int64], every append call and the
    finish call of a chunked upload carry as offset exactly the number of
    bytes that the earlier calls of the upload have carried, whatever the
    service answers and wherever the upload stops. *)
Theorem offsets_count_bytes_sent dbx commitInfo sizeTotal s :
  Z.of_nat (List.length (reader s)) = sizeTotal ->
  chunkSize < sizeTotal < Int64.half_modulus ->
  offsets_match 0 (issued s (snd (uploadChunked dbx commitInfo sizeTotal s)))
  = true.
Proof.
  intros Hlen [Hlo Hhi].
  pose proof chunkSize_eq as E. pose proof chunk_Z as Hchunk.
  destruct (append_count_bounds sizeTotal ltac:(lia)) as [Hc0 Hc1].
  assert (Hstart : Z.of_nat (List.length (firstn chunk (reader s))) = chunkSize)
    by (rewrite length_firstn; lia).
  destruct (start_reply dbx (log s) (firstn chunk (reader s))) as [sid|e] eqn:H.
  - destruct (uploadChunked_started dbx commitInfo sizeTotal s sid H)
      as (m & Hm & Hr).
    rewrite loop_iterations_exact in Hm by lia.
    assert (Hfit : chunkSize + Z.of_nat m * chunkSize < Int64.half_modulus)
      by (change Int64.half_modulus with 9223372036854775808 in *; nia).
    assert (Hroom : Z.of_nat m * chunkSize
                    <= Z.of_nat (List.length (skipn chunk (reader s))))
      by (rewrite length_skipn; nia).
    destruct Hr as [(m' & e & _ & -> & _)|[_ ->]];
      cbn [snd]; rewrite issued_app; unfold session_calls;
      cbn [offsets_match call_offset call_body andb app];
      rewrite Hstart; cbn [Z.add].
    + rewrite <- (app_nil_r (append_calls _ _ _ _)).
      rewrite offsets_match_appends by lia. reflexivity.
    + rewrite offsets_match_appends by lia.
      rewrite (finish_arg_offset _ _ _ Hfit).
      cbn [offsets_match call_offset Offset Cursor andb].
      rewrite andb_true_r. apply Z.eqb_eq. lia.
  - rewrite (uploadChunked_start_failed _ _ _ _ _ H). cbn [snd].
    rewrite issued_app. reflexivity.
Qed.

Lemma offsets_count_bytes_sent_witness :
  offsets_match 0
    (issued sample_conn
       (snd (uploadChunked accepting sample_commitInfo (chunkSize + 1)
               sample_conn)))
  = true.
Proof.
  apply offsets_count_bytes_sent.
  - exact sample_conn_size.
  - pose proof chunkSize_bounds. lia.
Defined.

(** ** Sizes of the chunks *)

Lemma session_calls_sizes sid r (m : nat) :
  (Z.of_nat m + 1) * chunkSize <= Z.of_nat (List.length r) ->
  Forall (fun c => body_size c = chunkSize) (session_calls sid r m).
Proof.
  intros H. pose proof chunk_Z as Hchunk. pose proof chunkSize_eq as E.
  unfold session_calls, body_size. constructor.
  - cbn [call_body]. rewrite length_firstn. nia.
  - unfold append_calls. apply Forall_forall. intros c Hc.
    apply in_map_iff in Hc. destruct Hc as (k & <- & Hk).
    apply in_seq in Hk. rewrite append_call_body_length; [exact Hchunk|].
    rewrite length_skipn. cbn [Nat.mul]. nia.
Qed.

(** X7: over a stream of [sizeTotal] bytes, with [sizeTotal] above
    [chunkSize] and in the range of [int64], the start call and every append
    call of a chunked upload carry exactly [chunkSize] bytes, and the finish
    call, when it is made, carries at least one byte and at most
    [chunkSize], whatever the service answers. *)
Theorem chunked_upload_body_sizes dbx commitInfo sizeTotal s :
  Z.of_nat (List.length (reader s)) = sizeTotal ->
  chunkSize < sizeTotal < Int64.half_modulus ->
  Forall (fun c => if is_finish c
                   then 1 <= body_size c <= chunkSize
                   else body_size c = chunkSize)
         (issued s (snd (uploadChunked dbx commitInfo sizeTotal s))).
Proof.
  intros Hlen [Hlo Hhi].
  pose proof chunkSize_eq as E. pose proof chunk_Z as Hchunk.
  destruct (append_count_bounds sizeTotal ltac:(lia)) as [Hc0 Hc1].
  assert (Hsession : forall sid m,
             (m <= Z.to_nat (append_count sizeTotal))%nat ->
             Forall (fun c => if is_finish c
                              then 1 <= body_size c <= chunkSize
                              else body_size c = chunkSize)
                    (session_calls sid (reader s) m)).
  { intros sid m Hm. eapply Forall_impl;
      [|apply (session_calls_sizes sid (reader s) m); nia].
    intros c Hc. unfold session_calls, append_calls in *.
    destruct (is_finish c); lia. }
  destruct (start_reply dbx (log s) (firstn chunk (reader s))) as [sid|e] eqn:H.
  - destruct (uploadChunked_started dbx commitInfo sizeTotal s sid H)
      as (m & Hm & Hr).
    rewrite loop_iterations_exact in * by lia.
    destruct Hr as [(m' & e & _ & -> & _)|[-> ->]];
      cbn [snd]; rewrite issued_app.
    + apply Hsession, Hm.
    + apply Forall_app. split; [apply Hsession; lia|].
      constructor; [|constructor]. cbn [is_finish]. unfold body_size.
      cbn [call_body]. rewrite !length_skipn. nia.
  - rewrite (uploadChunked_start_failed _ _ _ _ _ H). cbn [snd].
    rewrite issued_app. constructor; [|constructor].
    cbn [is_finish]. unfold body_size. cbn [call_body].
    rewrite length_firstn. lia.
Qed.

Lemma chunked_upload_body_sizes_witness :
  Forall (fun c => if is_finish c
                   then 1 <= body_size c <= chunkSize
                   else body_size c = chunkSize)
         (issued sample_conn
            (snd (uploadChunked accepting sample_commitInfo (chunkSize + 1)
                    sample_conn))).
Proof.
  apply chunked_upload_body_sizes.
  - exact sample_conn_size.
  - pose proof chunkSize_bounds. lia.
Defined.

(** ** The two paths of a task *)






(** ** The command as a whole *)

Lemma go_task_calls env destination w arg :
  calls (go_task env destination w arg)
  = calls (snd (put_task env destination arg w)).
Proof.
  unfold go_task. destruct (put_task env destination arg w). reflexivity.
Qed.

(** A property that the calls of every task have is had by all the calls of
    the command. *)
Lemma put_calls_all (P : Call -> Prop) env :
  (forall destination arg w, exists new,
      calls (snd (put_task env destination arg w)) = calls w ++ new /\
      Forall P new) ->
  forall args w, exists new,
    calls (snd (put env args w)) = calls w ++ new /\ Forall P new.
Proof.
  intros Htask args w. unfold put.
  destruct (List.length args =? 0)%nat.
  { exists []. rewrite app_nil_r. auto. }
  destruct (GetString_destination env) as [destination|e].
  2:{ exists []. rewrite app_nil_r. auto. }
  cbn [snd]. revert w. induction args as [|arg args IH]; intros w.
  - exists []. cbn [fold_left]. rewrite app_nil_r. auto.
  - cbn [fold_left].
    destruct (IH (go_task env destination w arg)) as (new2 & H2 & P2).
    destruct (Htask destination arg w) as (new1 & H1 & P1).
    exists (new1 ++ new2). rewrite H2, go_task_calls, H1, app_assoc.
    split; [reflexivity|]. apply Forall_app. auto.
Qed.

(** X10: every commit the command sends, for any arguments and on either
    path, asks to overwrite, without renaming and without muting, and is
    stamped in UTC with a whole number of seconds; no flag changes this.
    The calls made before the command are kept as they are. *)
Theorem put_always_overwrites env args w :
  exists new,
    calls (snd (put env args w)) = calls w ++ new /\
    Forall (fun c => forall ci, call_commit c = Some ci ->
              Mode ci = "overwrite" /\ Autorename ci = false /\
              Mute ci = false /\ loc (ClientModified ci) = UTC /\
              nanos (ClientModified ci) mod Second = 0) new.
Proof.
  apply put_calls_all. intros destination arg w0.
  destruct (put_task_calls env destination arg w0) as (new & Hcalls & Hnew).
  exists new. split; [exact Hcalls|].
  destruct (resolve_dst env destination arg) as [dst|e].
  2:{ subst new. constructor. }
  eapply Forall_impl; [|exact Hnew].
  intros c Hc ci Hci. rewrite (Hc ci Hci).
  destruct (Time_Round_Second (Time_UTC (time_Now env (ticks w0))))
    as (Hloc & Hnanos & _).
  repeat split; [exact Hloc|].
  cbn [make_commitInfo set_ClientModified ClientModified].
  rewrite Hnanos. apply Z.mod_mul. discriminate.
Qed.

(** X11: the command returns an error in two cases only, an empty argument
    list and a destination flag that cannot be read, and in both it has
    done nothing: no task, no call, no reading of the clock.  In every other
    case it returns [nil]. *)
Theorem put_error_cases env args w :
  (fst (put env args w) = None <->
   args <> [] /\ exists destination, GetString_destination env = Ok destination)
  /\ (fst (put env args w) <> None -> snd (put env args w) = w).
Proof.
  unfold put. destruct args as [|arg args]; cbn [List.length Nat.eqb].
  - split; [|reflexivity]. split; [discriminate|]. intros [H _]. contradiction.
  - destruct (GetString_destination env) as [destination|e]; cbn [fst snd].
    + split; [|contradiction]. split; [|reflexivity].
      intros _. split; [discriminate|]. exists destination. reflexivity.
    + split; [|reflexivity]. split; [discriminate|].
      intros [_ [d H]]. discriminate.
Qed.




(** A file that opens and cannot be statted stops its task as well, also
    when a destination is given and its path is accepted. *)
Example put_stat_fails :
  put (mkEnv (Ok "/x") (fun p => Ok p)
             (fun _ => Ok (mkFile [x01] (Err "stat: input/output error")))
             (fun _ => zero_Time) accepting)
      ["a.txt"] world0
  = (None, mkWorld [] 0 [("a.txt", Some "stat: input/output error")]).
Proof. reflexivity. Qed.



(** A [validatePath] that refuses every path, on a single argument. *)
Example destination_refused :
  put (mkEnv (Ok "/x") (fun _ => Err "invalid path")
             (fun _ => Ok small_file) (fun _ => zero_Time) accepting)
      ["a.txt"] world0
  = (None, mkWorld [] 0 [("a.txt", Some "invalid path")]).
Proof. reflexivity. Qed.

(** ** Errors of the chunked path *)

Lemma no_upload_in_session sid r m :
  existsb is_upload (session_calls sid r m) = false.
Proof.
  unfold session_calls, append_calls. cbn [existsb is_upload orb].
  induction (seq 0 m) as [|k l IH]; [reflexivity | exact IH].
Qed.

Lemma uploadChunked_makes_no_upload dbx commitInfo sizeTotal s :
  existsb is_upload
    (issued s (snd (uploadChunked dbx commitInfo sizeTotal s))) = false.
Proof.
  destruct (start_reply dbx (log s) (firstn chunk (reader s))) as [sid|e] eqn:H.
  - destruct (uploadChunked_started dbx commitInfo sizeTotal s sid H)
      as (m & _ & [(m' & e & _ & -> & _)|[_ ->]]);
      cbn [snd]; rewrite issued_app.
    + apply no_upload_in_session.
    + rewrite existsb_app, no_upload_in_session. reflexivity.
  - rewrite (uploadChunked_start_failed _ _ _ _ _ H). cbn [snd].
    rewrite issued_app. reflexivity.
Qed.

(** X14: when the chunked upload of a large file fails, at its start, at
    an append or at its finish call, the task returns that error as it is
    and stops: the single-shot call is not made. *)
Theorem chunked_error_ends_task dbx arg commitInfo size s e :
  size > chunkSize ->
  fst (uploadChunked dbx commitInfo size s) = Some e ->
  fst (upload_task dbx arg commitInfo size s) = Some e /\
  existsb is_upload
    (issued s (snd (upload_task dbx arg commitInfo size s))) = false.
Proof.
  intros Hsize Herr. rewrite (upload_task_large _ _ _ _ _ Hsize).
  pose proof (uploadChunked_makes_no_upload dbx commitInfo size s) as Hno.
  destruct (uploadChunked dbx commitInfo size s) as [[e'|] s1];
    cbn [fst snd] in *; [|discriminate].
  split; assumption.
Qed.

Lemma refused_finish :
  fst (uploadChunked refusing sample_commitInfo (chunkSize + 1) sample_conn)
  = Some "finish refused".
Proof.
  destruct (uploadChunked_started refusing sample_commitInfo (chunkSize + 1)
              sample_conn "session-1" eq_refl)
    as (m & Hm & [(m' & e & -> & _)|[_ ->]]).
  - rewrite loop_iterations_one_over in Hm. lia.
  - reflexivity.
Qed.

Lemma chunked_error_ends_task_witness :
  fst (upload_task refusing "big.bin" sample_commitInfo (chunkSize + 1)
         sample_conn) = Some "finish refused" /\
  existsb is_upload
    (issued sample_conn
       (snd (upload_task refusing "big.bin" sample_commitInfo (chunkSize + 1)
               sample_conn))) = false.
Proof.
  apply chunked_error_ends_task.
  - lia.
  - exact refused_finish.
Defined.
